(** * Range utilities of prosemirror-noting: a shallow embedding

    This development embeds [src/js/utils/range.ts] and states the
    properties of its range algebra, of the validation-input projector
    and differ, and of the transaction range mapper.

    Conventions of the embedding:
    - a JavaScript number holding a document position or a time stamp is
      an integer of [Z];
    - an array is a [list]; [Array.prototype.findIndex] returns
      [option nat], with [None] standing for [-1];
    - a string is a [string], its [length] the number of its characters;
    - where the source mutates an object ([Object.assign(range, ...)] in
      [mapRangeThroughTransactions]) the objects live in a store keyed by
      their reference, and arrays hold references. *)

From Stdlib Require Import ZArith String.
From stdpp Require Import base option list gmap.

Open Scope Z_scope.

(** ** Data model *)

(** [interface Range { from: number; to: number }] *)
Record Range : Type := mkRange { from : Z; to : Z }.

#[global] Instance Range_eq_dec : EqDecision Range.
Proof. solve_decision. Defined.

(** ** Array helpers *)

(** [Array.prototype.findIndex]: index of the first element satisfying
    the predicate, [None] for [-1]. *)
Fixpoint findIndex {A : Type} (p : A -> bool) (l : list A) : option nat :=
  match l with
  | [] => None
  | x :: l' => if p x then Some 0%nat else S <$> findIndex p l'
  end.

(** ** Range algebra *)

(** The predicate handed to [findIndex] in [findOverlappingRangeIndex]. *)
Definition overlaps (range localRange : Range) : bool :=
  (* Overlaps to the left of the range *)
  ((from localRange <=? from range) && (to localRange >=? from range)) ||
  (* Overlaps within the range *)
  ((to localRange >=? to range) && (from localRange <=? to range)) ||
  (* Overlaps to the right of the range *)
  ((from localRange >=? from range) && (to localRange <=? to range)).

Definition findOverlappingRangeIndex (range : Range) (ranges : list Range)
  : option nat :=
  findIndex (overlaps range) ranges.

Definition mergeRange (range1 range2 : Range) : Range :=
  {| from := if from range1 <? from range2 then from range1 else from range2;
     to := if to range1 >? to range2 then to range1 else to range2 |}.

(** One step of the [reduce] in [mergeRanges].  The index returned by
    [findOverlappingRangeIndex] is always inside [acc] (lemma
    [findIndex_Some] below), so the [None] branch of the lookup is never
    taken. *)
Definition mergeStep (acc : list Range) (range : Range) : list Range :=
  match findOverlappingRangeIndex range acc with
  | None => acc ++ [range]
  | Some index =>
      match acc !! index with
      | Some local => <[index := mergeRange range local]> acc
      | None => acc
      end
  end.

Definition mergeRanges (ranges : list Range) : list Range :=
  fold_left mergeStep ranges [].

(** The callback of the [reduce] in [diffRanges]; [recur] is the
    recursive call.  [secondRangesMerged[overlap]] is read at the index
    [findOverlappingRangeIndex] has just returned, which is inside the
    array (lemma [findIndex_Some]). *)
Definition diffStep
    (recur : list Range -> list Range -> option (list Range))
    (secondRangesMerged : list Range)
    (oacc : option (list Range)) (range : Range) : option (list Range) :=
  acc ← oacc;
  match findOverlappingRangeIndex range secondRangesMerged with
  | None => Some (acc ++ [range])
  | Some overlap =>
      overlappingRange ← secondRangesMerged !! overlap;
      let firstShortenedRange :=
        {| from := from range; to := from overlappingRange |} in
      (* If the compared range overlaps our range completely, chop the
         end off... *)
      if to overlappingRange >=? to range then
        (* (ranges of 0 aren't valid) *)
        if from firstShortenedRange =? to firstShortenedRange
        then Some acc
        else Some (acc ++ [firstShortenedRange])
      else
        (* ... else, split the range and diff the latter segment
           recursively. *)
        rest ← recur [ {| from := to overlappingRange + 1; to := to range |} ]
                     secondRangesMerged;
        Some (acc ++ firstShortenedRange :: rest)
  end.

(** [diffRanges] calls itself on the right remainder of a split range.
    The recursion does not terminate on every input (an inverted range in
    the second set can hand back the same remainder for ever), so the
    embedding takes a bound on the recursion depth: [None] means that the
    bound was reached. *)
Fixpoint diffRanges (fuel : nat) (firstRanges secondRanges : list Range)
  : option (list Range) :=
  match fuel with
  | O => None
  | S fuel' =>
      let firstRangesMerged := mergeRanges firstRanges in
      let secondRangesMerged := mergeRanges secondRanges in
      fold_left (diffStep (diffRanges fuel') secondRangesMerged)
        firstRangesMerged (Some [])
  end.

(** ** Validation inputs *)

(** [ValidationInput] / [ValidationOutput]: a span, the text it covers
    and whatever other fields the record carries ([T extends
    ValidationInput | ValidationOutput]); the projector copies those other
    fields over unchanged, so they are one opaque [extra] field here. *)
Record ValidationInput (Payload : Type) : Type := mkVI
  { vi_from : Z; vi_to : Z; str : string; extra : Payload }.

Arguments mkVI {Payload} _ _ _ _.
Arguments vi_from {Payload} _.
Arguments vi_to {Payload} _.
Arguments str {Payload} _.
Arguments extra {Payload} _.

(** [string.length] *)
Definition strlen (s : string) : Z := Z.of_nat (String.length s).

(** [String.prototype.slice(start, end)]: a negative index counts from the
    end of the string, both indexes are clamped to the string, and the
    result is empty when the start is not before the end. *)
Definition slice (s : string) (start end_ : Z) : string :=
  let len := strlen s in
  let from' := if start <? 0 then Z.max (len + start) 0 else Z.min start len in
  let to' := if end_ <? 0 then Z.max (len + end_) 0 else Z.min end_ len in
  substring (Z.to_nat from') (Z.to_nat (Z.max (to' - from') 0)) s.

(** Truthiness of a string: every string but the empty one. *)
Definition truthy (s : string) : bool :=
  match s with EmptyString => false | String _ _ => true end.

Definition validationInputToRange {Payload} (vi : ValidationInput Payload)
  : Range :=
  {| from := vi_from vi; to := vi_from vi + strlen (str vi) |}.

Definition getValRangesFromRange {Payload} (range : Range)
    (valRanges : list (ValidationInput Payload))
  : list (ValidationInput Payload) :=
  fold_left
    (fun acc vi =>
       (* If this validation input touches this range, remove it. *)
       if (from range >=? vi_from vi)
          && (from range <=? vi_from vi + strlen (str vi))
       then
         let from' := from range - vi_from vi in
         let to' := from range - vi_from vi + (to range - from range) in
         let str' := slice (str vi) (if from' >? 0 then from' - 1 else 0) to' in
         if truthy str'
         then acc ++ [ {| vi_from := from range; vi_to := to range;
                          str := str'; extra := extra vi |} ]
         else acc
       else acc)
    valRanges [].

(** [flatten] of lodash on an array of arrays is [concat]. *)
Definition diffValidationInputs {Payload P2} (fuel : nat)
    (firstValInputs : list (ValidationInput Payload))
    (secondValInputs : list (ValidationInput P2))
  : option (list (ValidationInput Payload)) :=
  ranges ← diffRanges fuel
             (validationInputToRange <$> firstValInputs)
             (validationInputToRange <$> secondValInputs);
  Some (concat
          ((fun range => getValRangesFromRange range firstValInputs)
             <$> ranges)).

(** ** Mapping ranges through transactions *)

(** What the mapper reads of a ProseMirror [Transaction]: its time stamp
    and the position map [tr.mapping.map]. *)
Record Transaction : Type := mkTr { time : Z; mapping : Z -> Z }.

(** Range objects are held by reference: the arrays handed to and returned
    by [mapRangeThroughTransactions] are lists of references into a store
    of objects. *)
Definition ref : Type := nat.

(** A computation over the store; [None] is the [TypeError] of reading a
    property through a reference to no object. *)
Definition Heap (A : Type) : Type :=
  gmap ref Range -> option (A * gmap ref Range).

Definition hret {A} (a : A) : Heap A := fun h => Some (a, h).

Definition hbind {A B} (m : Heap A) (k : A -> Heap B) : Heap B :=
  fun h => match m h with
           | Some (a, h') => k a h'
           | None => None
           end.

Declare Scope heap_scope.
Delimit Scope heap_scope with heap.
Notation "x <~ m ; k" := (hbind m (fun x => k))
  (at level 20, m at level 100, k at level 200, only parsing) : heap_scope.
Notation "m ;; k" := (hbind m (fun _ => k))
  (at level 100, k at level 200, right associativity, only parsing)
  : heap_scope.

(** Reading the fields of the object behind a reference. *)
Definition deref (r : ref) : Heap Range :=
  fun h => match h !! r with
           | Some o => Some (o, h)
           | None => None
           end.

(** [Object.assign(r, {from, to})]: the object behind [r] is overwritten
    in place. *)
Definition assign (r : ref) (o : Range) : Heap unit :=
  fun h => Some (tt, <[r := o]> h).

(** [Array.prototype.map] with a callback that works on the store. *)
Fixpoint mapArray {A B} (f : A -> Heap B) (l : list A) : Heap (list B) :=
  match l with
  | [] => hret []
  | x :: l' => (y <~ f x; ys <~ mapArray f l'; hret (y :: ys))%heap
  end.

(** [compact] of lodash: the falsy entries, here [undefined], are dropped. *)
Definition compact {A} (l : list (option A)) : list A := omap id l.

(** The callback of [ranges.map] in [mapRangeThroughTransactions];
    [None] is its [undefined]. *)
Definition mapOneRange (at_time : Z) (trs : list Transaction) (range : ref)
  : Heap (option ref) :=
  let initialTransactionIndex :=
    findIndex (fun tr => time tr =? at_time) trs in
  (* If we only have a single transaction in the history, we're dealing
     with an unaltered document, and so there's no mapping to do. *)
  if (length trs =? 1)%nat then hret (Some range)
  else
    match initialTransactionIndex with
    | None => hret None
    | Some i =>
        (o <~ deref range;
         assign range
           (fold_left
              (fun acc tr =>
                 {| from := mapping tr (from acc);
                    to := mapping tr (to acc) |})
              (drop i trs) o) ;;
         hret (Some range))%heap
    end.

Definition mapRangeThroughTransactions (ranges : list ref) (at_time : Z)
    (trs : list Transaction) : Heap (list ref) :=
  (rs <~ mapArray (mapOneRange at_time trs) ranges; hret (compact rs))%heap.


(** ** Expanding ranges to their parent block nodes *)

(** What [findParentNode] of prosemirror-utils returns, as far as
    [expandRange] reads it: [parentNode.start] and
    [parentNode.node.textContent]. *)
Record ParentNode : Type := mkParent { start : Z; textContent : string }.

(** What [expandRange] and [getRangesOfParentBlockNodes] use of the
    document, for a type [Pos] of resolved positions: [doc.resolve], which
    throws on a position outside the document ([None]); the search
    [findParentNode(node => node.isBlock)] from a selection between two
    resolved positions, which finds a block or nothing; and
    [doc.content.size]. *)
Record Doc (Pos : Type) : Type := mkDoc
  { resolve : Z -> option Pos;
    findParentBlock : Pos -> Pos -> option ParentNode;
    content_size : Z }.

Arguments resolve {Pos} _ _.
Arguments findParentBlock {Pos} _ _ _.
Arguments content_size {Pos} _.

(** [expandRange]; [None] is a thrown error, that of [doc.resolve] or
    the [Parent node not found] of the function itself. *)
Definition expandRange {Pos} (range : Range) (doc : Doc Pos) : option Range :=
  fromPos ← resolve doc (from range);
  toPos ← resolve doc (to range);
  parentNode ← findParentBlock doc fromPos toPos;
  Some {| from := start parentNode;
          to := start parentNode + strlen (textContent parentNode) |}.

(** [clamp(number, upper)] of lodash, called with two arguments: the
    number is bounded from above only. *)
Definition clamp (number upper : Z) : Z :=
  if number <=? upper then number else upper.

(** The [reduce] of [getRangesOfParentBlockNodes] starts from [ranges]
    itself and appends one expanded range for each range. *)
Definition getRangesOfParentBlockNodes {Pos} (ranges : list Range)
    (doc : Doc Pos) : option (list Range) :=
  validationRanges ←
    fold_left
      (fun (oacc : option (list Range)) (range : Range) =>
         acc ← oacc;
         expandedRange ←
           expandRange {| from := from range; to := to range |} doc;
         Some (acc ++ [ {| from := from expandedRange;
                           to := clamp (to expandedRange)
                                   (content_size doc) |} ]))
      ranges (Some ranges);
  Some (mergeRanges validationRanges).

(** ** Text maps of a document *)

(** An entry of [findTextNodes]: the text of the node ([node.text], which
    a node may lack), the parent node, compared by identity and so held
    by reference, and the position of the node. *)
Record TextNodeWrapper : Type := mkWrapper
  { node_text : option string; parent : ref; pos : Z }.

(** The accumulator of the [reduce] in [getTextMaps]. *)
Record TextMapAcc : Type := mkAcc
  { positionMap : list (ValidationInput unit); acc_length : Z }.

(** The body of the callback of the [reduce] in [getTextMaps], once
    [previousNodeWrapper] is read.  [previousMap.from] is read without a
    guard: [None] is the [TypeError] of reading it when the position map
    is empty. *)
Definition addTextNode (previousNodeWrapper : option TextNodeWrapper)
    (acc : TextMapAcc) (textNodeWrapper : TextNodeWrapper)
  : option TextMapAcc :=
  let previousMap := last (positionMap acc) in
  let str' := default EmptyString (node_text textNodeWrapper) in
  let sharesParentWithPreviousNode :=
    match previousNodeWrapper with
    | Some previous => Nat.eqb (parent textNodeWrapper) (parent previous)
    | None => false
    end in
  if sharesParentWithPreviousNode then
    (* If this node shares a parent with the previous, add its text and
       mapping to the last node's position map. *)
    let previousPositionMaps :=
      take (length (positionMap acc) - 1) (positionMap acc) in
    let currentText :=
      (match previousMap with
       | Some m => str m
       | None => EmptyString
       end ++ str')%string in
    previous ← previousMap;
    Some {| acc_length := acc_length acc + strlen str';
            positionMap :=
              previousPositionMaps ++
              [ {| str := currentText;
                   vi_from := vi_from previous;
                   vi_to := vi_from previous + strlen currentText;
                   extra := tt |} ] |}
  else
    (* Add a new position map. *)
    Some {| acc_length := acc_length acc + strlen str';
            positionMap :=
              positionMap acc ++
              [ {| str := str';
                   vi_from := pos textNodeWrapper;
                   vi_to := pos textNodeWrapper + strlen str';
                   extra := tt |} ] |}.

(** The callback of the [reduce] in [getTextMaps], at index [index] of
    [textNodes]: [previousNodeWrapper] is [textNodes[index - 1]], which
    is [undefined] at index 0. *)
Definition getTextMapsStep (textNodes : list TextNodeWrapper)
    (oacc : option TextMapAcc) (entry : nat * TextNodeWrapper)
  : option TextMapAcc :=
  acc ← oacc;
  let '(index, textNodeWrapper) := entry in
  addTextNode
    (match index with
     | O => None
     | S index' => textNodes !! index'
     end)
    acc textNodeWrapper.

(** [getTextMaps] on the text nodes that [findTextNodes] has found in the
    document; [None] is a thrown [TypeError]. *)
Definition getTextMaps (textNodes : list TextNodeWrapper)
  : option (list (ValidationInput unit)) :=
  positionMap <$>
    fold_left (getTextMapsStep textNodes)
      (zip (seq 0 (length textNodes)) textNodes)
      (Some {| positionMap := []; acc_length := 0 |}).

(** ** Predicates and measures of the statements *)

(** *** What [mergeRanges] keeps of its input

    A position is [covered] by a list when a range of the list, read as
    the closed interval of its bounds, holds it.  Every range that
    [mergeRanges] returns is made of covered positions only, and is a
    range of the input when it is inverted. *)

Definition covered (X : list Range) (p : Z) : Prop :=
  exists x, x ∈ X /\ from x <= p <= to x.

Definition within (X : list Range) (m : Range) : Prop :=
  (to m < from m -> m ∈ X) /\
  (forall p, from m <= p <= to m -> covered X p).

(** *** Disjoint range lists *)

(** No range of [A] overlaps a range of [B], as
    [findOverlappingRangeIndex] decides it. *)
Definition disjoint (A B : list Range) : Prop :=
  forall a, a ∈ A -> findOverlappingRangeIndex a B = None.

(** *** Separated range lists *)

(** No range of the list overlaps a range before it in the list. *)
Definition separated (X : list Range) : Prop :=
  forall i j a b, (i < j)%nat -> X !! i = Some a -> X !! j = Some b ->
                  overlaps b a = false.

(** *** Valid, contained and sorted ranges *)

(** A range whose bounds are in order, read as a closed interval. *)
Definition valid (r : Range) : Prop := from r <= to r.

(** [m] reaches at least as far as [x] on both sides. *)
Definition contains (m x : Range) : Prop :=
  from m <= from x /\ to x <= to m.

(** The ranges come in the order of their [from]. *)
Definition sortedByFrom (X : list Range) : Prop :=
  forall i j a b, (i < j)%nat -> X !! i = Some a -> X !! j = Some b ->
                  from a <= from b.

(** Each range ends before the next one starts. *)
Definition chain (X : list Range) : Prop :=
  forall i j a b, (i < j)%nat -> X !! i = Some a -> X !! j = Some b ->
                  to a < from b.

(** *** Well-formed validation inputs *)

(** The inputs that [diffValidationInputs] assumes: each record spans its
    text, which is not empty, and no record overlaps an earlier one. *)
Definition wellFormedInputs {Payload}
    (inputs : list (ValidationInput Payload)) : Prop :=
  (forall vi, vi ∈ inputs ->
     vi_to vi = vi_from vi + strlen (str vi) /\ 0 < strlen (str vi)) /\
  separated (validationInputToRange <$> inputs).

(** *** Composed position maps *)

(** A position taken through the maps of a list of transactions, in the
    order of the list. *)
Definition mapPosition (trs : list Transaction) (p : Z) : Z :=
  fold_left (fun p tr => mapping tr p) trs p.

(** Both bounds of a range taken through the maps. *)
Definition mapThrough (trs : list Transaction) (o : Range) : Range :=
  {| from := mapPosition trs (from o); to := mapPosition trs (to o) |}.

(** A position map that keeps the order of positions. *)
Definition monotone (f : Z -> Z) : Prop :=
  forall p q, p <= q -> f p <= f q.

(** *** Texts of text nodes *)

(** [node.text || ""] *)
Definition wrapperText (w : TextNodeWrapper) : string :=
  default EmptyString (node_text w).

(** The strings of a list, one after the other. *)
Definition joined (l : list string) : string :=
  foldr String.append EmptyString l.

(** The record of a text node that stands alone. *)
Definition wrapperRecord (w : TextNodeWrapper) : ValidationInput unit :=
  {| vi_from := pos w; vi_to := pos w + strlen (wrapperText w);
     str := wrapperText w; extra := tt |}.

(** *** The block expander *)

(** The expanded range that [getRangesOfParentBlockNodes] appends for a
    range, its end clamped to the size of the document. *)
Definition expandedClamped {Pos} (doc : Doc Pos) (range : Range)
  : option Range :=
  expandedRange ← expandRange range doc;
  Some {| from := from expandedRange;
          to := clamp (to expandedRange) (content_size doc) |}.

(** A document of 15 positions for the examples: positions 0 to 30
    resolve; a position below 10 lies in the block that starts at 1 and
    holds "hello", a position below 20 in the block that starts at 11 and
    holds "worlds!", and a later position in no block. *)
Definition sampleDoc : Doc Z :=
  {| resolve := fun p => if (0 <=? p) && (p <=? 30) then Some p else None;
     findParentBlock := fun fromPos _ =>
       if fromPos <? 10 then Some (mkParent 1 "hello")
       else if fromPos <? 20 then Some (mkParent 11 "worlds!")
       else None;
     content_size := 15 |}.

(** The list on which the single pass of [mergeRanges] shows: its third
    range bridges the first two. *)
Definition bridging : list Range := [mkRange 0 2; mkRange 5 7; mkRange 1 6].

(** What the callback of [getValRangesFromRange] adds for one record:
    the re-sliced record or nothing. *)
Definition projected {Payload} (range : Range)
    (vi : ValidationInput Payload) : option (ValidationInput Payload) :=
  if (from range >=? vi_from vi)
     && (from range <=? vi_from vi + strlen (str vi))
  then
    let from' := from range - vi_from vi in
    let to' := from range - vi_from vi + (to range - from range) in
    let str' := slice (str vi) (if from' >? 0 then from' - 1 else 0) to' in
    if truthy str'
    then Some {| vi_from := from range; vi_to := to range;
                 str := str'; extra := extra vi |}
    else None
  else None.

(** The number of [undefined] entries that [compact] drops. *)
Fixpoint countOmitted {A} (rs : list (option A)) : nat :=
  match rs with
  | [] => 0
  | None :: rs' => S (countOmitted rs')
  | Some _ :: rs' => countOmitted rs'
  end.

(** * Properties *)

(** ** The examples of the documentation *)

Example mergeRanges_ex :
  mergeRanges [mkRange 0 5; mkRange 4 10; mkRange 20 25]
  = [mkRange 0 10; mkRange 20 25].
Proof. reflexivity. Qed.

Example diffRanges_ex :
  diffRanges 2 [mkRange 0 10] [mkRange 3 6] = Some [mkRange 0 3; mkRange 7 10].
Proof. reflexivity. Qed.

Example getValRangesFromRange_ex :
  getValRangesFromRange (mkRange 0 3) [mkVI 0 10 "helloworld"%string tt]
  = [mkVI 0 3 "hel"%string tt].
Proof. reflexivity. Qed.

(** ** [findIndex] *)

Section FindIndex.
Context {A : Type} (p : A -> bool).

Lemma findIndex_Some (l : list A) (i : nat) :
  findIndex p l = Some i ->
  exists x, l !! i = Some x /\ p x = true.
Proof.
  revert i. induction l as [|y l IH]; intros i; simpl; [discriminate|].
  destruct (p y) eqn:Hy.
  - intros [= <-]. eauto.
  - destruct (findIndex p l) as [j|]; simpl; [|discriminate].
    intros [= <-]. apply IH. reflexivity.
Qed.

Lemma findIndex_None (l : list A) :
  findIndex p l = None <-> forall x, x ∈ l -> p x = false.
Proof.
  induction l as [|y l IH]; simpl.
  - split; [|reflexivity]. intros _ x Hx. inversion Hx.
  - destruct (p y) eqn:Hy.
    + split; [discriminate|]. intros H.
      rewrite (H y) in Hy by constructor. discriminate.
    + destruct (findIndex p l) as [j|]; simpl.
      * split; [discriminate|]. intros H.
        destruct IH as [_ IH]. discriminate IH.
        intros x Hx. apply H. now constructor.
      * split; [|reflexivity]. intros _ x Hx.
        apply elem_of_cons in Hx as [->|Hx]; [assumption|].
        now apply IH.
Qed.

Lemma findIndex_first (l : list A) (i : nat) :
  findIndex p l = Some i ->
  forall j y, (j < i)%nat -> l !! j = Some y -> p y = false.
Proof.
  revert i. induction l as [|z l IH]; intros i; simpl; [discriminate|].
  destruct (p z) eqn:Hz.
  - intros [= <-] j y Hj. lia.
  - destruct (findIndex p l) as [k|]; simpl; [|discriminate].
    intros [= <-] [|j] y Hj; simpl.
    + now intros [= <-].
    + apply (IH k eq_refl). lia.
Qed.
End FindIndex.

(** ** The overlap test *)

Lemma overlaps_spec (range localRange : Range) :
  overlaps range localRange = true <->
  (from localRange <= from range <= to localRange) \/
  (from localRange <= to range <= to localRange) \/
  (from range <= from localRange /\ to localRange <= to range).
Proof.
  unfold overlaps.
  rewrite !orb_true_iff, !andb_true_iff, !Z.leb_le, !Z.geb_le. lia.
Qed.

(** Every range overlaps itself, inverted or not. *)
Lemma overlaps_refl (r : Range) : overlaps r r = true.
Proof. apply overlaps_spec. lia. Qed.

Lemma findOverlappingRangeIndex_None (range : Range) (ranges : list Range) :
  findOverlappingRangeIndex range ranges = None <->
  forall l, l ∈ ranges -> overlaps range l = false.
Proof. apply findIndex_None. Qed.

Lemma Range_eq (r1 r2 : Range) :
  from r1 = from r2 -> to r1 = to r2 -> r1 = r2.
Proof. destruct r1, r2; simpl; congruence. Qed.

Lemma mergeRange_from (r1 r2 : Range) :
  from (mergeRange r1 r2) = Z.min (from r1) (from r2).
Proof. simpl. destruct (Z.ltb_spec (from r1) (from r2)); lia. Qed.

Lemma mergeRange_to (r1 r2 : Range) :
  to (mergeRange r1 r2) = Z.max (to r1) (to r2).
Proof.
  simpl. rewrite Z.gtb_ltb. destruct (Z.ltb_spec (to r2) (to r1)); lia.
Qed.

Lemma within_input (X : list Range) (r : Range) : r ∈ X -> within X r.
Proof.
  intros Hr. split; [auto|]. intros p Hp. exists r. auto.
Qed.

Lemma within_mergeRange (X : list Range) (r l : Range) :
  r ∈ X -> within X l -> overlaps r l = true -> within X (mergeRange r l).
Proof.
  intros Hr [Hinv Hcov] Hov%overlaps_spec. split.
  - rewrite mergeRange_from, mergeRange_to. intros Hm.
    assert (Hl : to l < from l) by lia.
    replace (mergeRange r l) with r; [assumption|].
    apply Range_eq; rewrite ?mergeRange_from, ?mergeRange_to; lia.
  - intros p. rewrite mergeRange_from, mergeRange_to. intros Hp.
    destruct (Z_le_gt_dec (from l) p) as [Hlo|Hlo];
      [destruct (Z_le_gt_dec p (to l)) as [Hhi|Hhi]|].
    + apply Hcov. lia.
    + exists r. split; [assumption|]. lia.
    + exists r. split; [assumption|]. lia.
Qed.

Lemma within_mergeStep (X acc : list Range) (r : Range) :
  r ∈ X -> Forall (within X) acc -> Forall (within X) (mergeStep acc r).
Proof.
  intros Hr Hacc. unfold mergeStep.
  destruct (findOverlappingRangeIndex r acc) as [i|] eqn:Hi.
  - destruct (findIndex_Some _ _ _ Hi) as (l & Hl & Hov). rewrite Hl.
    apply Forall_insert; [assumption|].
    apply within_mergeRange; [assumption| |assumption].
    eapply Forall_lookup_1; eassumption.
  - apply Forall_app. split; [assumption|].
    constructor; [|constructor]. now apply within_input.
Qed.

Lemma within_fold (X rs acc : list Range) :
  (forall r, r ∈ rs -> r ∈ X) ->
  Forall (within X) acc -> Forall (within X) (fold_left mergeStep rs acc).
Proof.
  revert acc. induction rs as [|r rs IH]; intros acc Hsub Hacc; simpl.
  - assumption.
  - apply IH.
    + intros x Hx. apply Hsub. now constructor.
    + apply within_mergeStep; [|assumption]. apply Hsub. constructor.
Qed.

Lemma within_mergeRanges (X : list Range) :
  Forall (within X) (mergeRanges X).
Proof. apply within_fold; [auto|constructor]. Qed.

(** Two ranges made of positions covered by [A] and by [B] overlap only
    if a range of [A] overlaps a range of [B]. *)
Lemma within_overlaps (A B : list Range) (m n : Range) :
  within A m -> within B n -> overlaps m n = true ->
  exists a b, a ∈ A /\ b ∈ B /\ overlaps a b = true.
Proof.
  intros [HmI HmC] [HnI HnC] Hov%overlaps_spec.
  destruct (Z_lt_le_dec (to m) (from m)) as [Hm|Hm];
    destruct (Z_lt_le_dec (to n) (from n)) as [Hn|Hn].
  - exists m, n. repeat split; auto. apply overlaps_spec. lia.
  - assert (Hp : from n <= from m <= to n \/ from n <= to m <= to n) by lia.
    destruct Hp as [Hp|Hp]; apply HnC in Hp as (b & Hb & Hpb);
      exists m, b; (repeat split; auto); apply overlaps_spec; lia.
  - destruct (Z_le_gt_dec (from n) (to m)) as [Hc|Hc].
    + destruct (HmC (from n)) as (a & Ha & Hpa); [lia|].
      exists a, n. repeat split; auto. apply overlaps_spec. lia.
    + destruct (HmC (to m)) as (a & Ha & Hpa); [lia|].
      exists a, n. repeat split; auto. apply overlaps_spec. lia.
  - destruct (HmC (Z.max (from m) (from n))) as (a & Ha & Hpa); [lia|].
    destruct (HnC (Z.max (from m) (from n))) as (b & Hb & Hpb); [lia|].
    exists a, b. repeat split; auto. apply overlaps_spec. lia.
Qed.

(** ** The recursion bound of [diffRanges]

    A result reached within a bound is the result within every larger
    bound: the bound only decides whether a result is reached. *)

Section DiffStep.
Variables recur1 recur2 : list Range -> list Range -> option (list Range).
Hypothesis recur_mono :
  forall A B r, recur1 A B = Some r -> recur2 A B = Some r.
Variable secondRangesMerged : list Range.

Lemma diffStep_mono (oacc : option (list Range)) (range : Range) r :
  diffStep recur1 secondRangesMerged oacc range = Some r ->
  diffStep recur2 secondRangesMerged oacc range = Some r.
Proof.
  unfold diffStep. destruct oacc as [acc|]; simpl; [|discriminate].
  destruct (findOverlappingRangeIndex range secondRangesMerged) as [i|];
    [|auto].
  destruct (secondRangesMerged !! i) as [o|]; simpl; [|discriminate].
  destruct (to o >=? to range); [auto|].
  destruct (recur1 _ _) as [rest|] eqn:Hrec; simpl; [|discriminate].
  rewrite (recur_mono _ _ _ Hrec). auto.
Qed.

Lemma fold_diffStep_None (l : list Range) :
  fold_left (diffStep recur1 secondRangesMerged) l None = None.
Proof. induction l; simpl; auto. Qed.

Lemma fold_diffStep_mono (l : list Range) (oacc : option (list Range)) r :
  fold_left (diffStep recur1 secondRangesMerged) l oacc = Some r ->
  fold_left (diffStep recur2 secondRangesMerged) l oacc = Some r.
Proof.
  revert oacc. induction l as [|x l IH]; intros oacc; simpl; [auto|].
  destruct (diffStep recur1 secondRangesMerged oacc x) as [acc'|] eqn:Hx.
  - rewrite (diffStep_mono _ _ _ Hx). apply IH.
  - rewrite fold_diffStep_None. discriminate.
Qed.
End DiffStep.

Lemma diffRanges_fuel_S (fuel : nat) (A B : list Range) r :
  diffRanges fuel A B = Some r -> diffRanges (S fuel) A B = Some r.
Proof.
  revert A B r. induction fuel as [|fuel IH]; intros A B r; [discriminate|].
  intros H. change (fold_left (diffStep (diffRanges (S fuel)) (mergeRanges B))
                      (mergeRanges A) (Some []) = Some r).
  eapply fold_diffStep_mono; [|exact H]. exact IH.
Qed.

Lemma diffRanges_fuel_mono (fuel fuel' : nat) (A B : list Range) r :
  (fuel <= fuel')%nat ->
  diffRanges fuel A B = Some r -> diffRanges fuel' A B = Some r.
Proof.
  induction 1 as [|fuel' _ IH]; [auto|].
  intros H. apply diffRanges_fuel_S. auto.
Qed.

(** The bound is needed: against the inverted range [5..0] the right
    remainder of [1..10] is [1..10] again, and no bound is enough. *)
Lemma diffRanges_no_result (fuel : nat) :
  diffRanges fuel [mkRange 1 10] [mkRange 5 0] = None.
Proof.
  induction fuel as [|fuel IH]; [reflexivity|].
  change (diffStep (diffRanges fuel) [mkRange 5 0] (Some []) (mkRange 1 10)
          = None).
  unfold diffStep. simpl. change (0 + 1) with 1. rewrite IH. reflexivity.
Qed.

(** A range with no overlap in the second set is kept whole. *)
Lemma fold_diffStep_no_overlap recur (sm l acc : list Range) :
  (forall r, r ∈ l -> findOverlappingRangeIndex r sm = None) ->
  fold_left (diffStep recur sm) l (Some acc) = Some (acc ++ l).
Proof.
  revert acc. induction l as [|x l IH]; intros acc Hl; simpl.
  - now rewrite app_nil_r.
  - rewrite (Hl x) by constructor. rewrite IH.
    + now rewrite <- app_assoc.
    + intros r Hr. apply Hl. now constructor.
Qed.

Lemma disjoint_mergeRanges (A B : list Range) :
  disjoint A B -> disjoint (mergeRanges A) (mergeRanges B).
Proof.
  intros Hd m Hm. apply findOverlappingRangeIndex_None. intros n Hn.
  destruct (overlaps m n) eqn:Hov; [|reflexivity]. exfalso.
  pose proof (within_mergeRanges A) as HA.
  pose proof (within_mergeRanges B) as HB.
  rewrite Forall_forall in HA, HB.
  destruct (within_overlaps A B m n (HA m Hm) (HB n Hn) Hov)
    as (a & b & Ha & Hb & Hab).
  specialize (Hd a Ha).
  rewrite findOverlappingRangeIndex_None in Hd.
  rewrite (Hd b Hb) in Hab. discriminate.
Qed.

(** C7: for range lists [A] and [B] of which no range of [A] overlaps a
    range of [B] (by [findOverlappingRangeIndex]), [diffRanges A B] returns
    [mergeRanges A]; it does so without recursive call, so whatever the
    bound on the recursion. *)
Theorem diffRanges_disjoint (fuel : nat) (A B : list Range) :
  disjoint A B -> diffRanges (S fuel) A B = Some (mergeRanges A).
Proof.
  intros Hd. simpl.
  apply (fold_diffStep_no_overlap _ _ _ []).
  apply disjoint_mergeRanges, Hd.
Qed.

Lemma diffRanges_disjoint_witness :
  disjoint [mkRange 0 2; mkRange 1 3] [mkRange 10 12] /\
  diffRanges 1 [mkRange 0 2; mkRange 1 3] [mkRange 10 12]
  = Some (mergeRanges [mkRange 0 2; mkRange 1 3]).
Proof.
  assert (Hd : disjoint [mkRange 0 2; mkRange 1 3] [mkRange 10 12]).
  { intros a Ha. repeat (apply elem_of_cons in Ha as [->|Ha]; [reflexivity|]).
    inversion Ha. }
  split; [exact Hd|]. exact (diffRanges_disjoint 0 _ _ Hd).
Defined.

(** ** Separated range lists

    On a list of which no range overlaps an earlier one, [mergeRanges]
    changes nothing; and when the output of [mergeRanges] on [R] is such a
    list, [diffRanges R R] is empty. *)

Lemma mergeStep_fold_separated (rs acc : list Range) :
  separated (acc ++ rs) -> fold_left mergeStep rs acc = acc ++ rs.
Proof.
  revert acc. induction rs as [|r rs IH]; intros acc Hsep; simpl.
  - now rewrite app_nil_r.
  - assert (Hnone : findOverlappingRangeIndex r acc = None).
    { apply findOverlappingRangeIndex_None. intros l Hl.
      apply list_elem_of_lookup in Hl as [i Hi].
      apply (Hsep i (length acc)).
      - eapply lookup_lt_Some, Hi.
      - rewrite lookup_app_l; [exact Hi|]. eapply lookup_lt_Some, Hi.
      - now rewrite list_lookup_middle. }
    unfold mergeStep at 2. rewrite Hnone. rewrite IH.
    + now rewrite <- app_assoc.
    + now rewrite <- app_assoc.
Qed.

Lemma mergeRanges_separated (X : list Range) :
  separated X -> mergeRanges X = X.
Proof. intros Hsep. apply (mergeStep_fold_separated X []), Hsep. Qed.

Lemma findOverlappingRangeIndex_separated (M : list Range) (j : nat) r :
  separated M -> M !! j = Some r -> findOverlappingRangeIndex r M = Some j.
Proof.
  intros Hsep Hj. unfold findOverlappingRangeIndex.
  destruct (findIndex (overlaps r) M) as [i|] eqn:Hi.
  - f_equal. destruct (findIndex_Some _ _ _ Hi) as (o & Ho & Hov).
    destruct (lt_eq_lt_dec i j) as [[Hlt|Heq]|Hgt]; [|assumption|].
    + rewrite (Hsep i j o r Hlt Ho Hj) in Hov. discriminate.
    + pose proof (overlaps_refl r) as Hrefl.
      rewrite (findIndex_first _ _ _ Hi j r Hgt Hj) in Hrefl. discriminate.
  - rewrite findIndex_None in Hi. pose proof (overlaps_refl r) as Hrefl.
    rewrite Hi in Hrefl; [discriminate|].
    apply list_elem_of_lookup. eauto.
Qed.

Lemma fold_diffStep_self recur (M l acc : list Range) :
  separated M -> (forall r, r ∈ l -> r ∈ M) ->
  fold_left (diffStep recur M) l (Some acc) = Some acc.
Proof.
  intros Hsep. induction l as [|r l IH]; intros Hl; simpl; [reflexivity|].
  destruct (proj1 (list_elem_of_lookup M r)) as [j Hj]; [apply Hl; constructor|].
  rewrite (findOverlappingRangeIndex_separated M j r Hsep Hj), Hj. simpl.
  assert (Hge : (to r >=? to r) = true) by (apply Z.geb_le; lia).
  rewrite Hge, Z.eqb_refl. apply IH.
  intros x Hx. apply Hl. now constructor.
Qed.

Lemma diffRanges_self_separated (fuel : nat) (R : list Range) :
  separated (mergeRanges R) -> diffRanges (S fuel) R R = Some [].
Proof. intros Hsep. simpl. now apply fold_diffStep_self. Qed.

(** ** Where [mergeRanges] and [diffRanges] go wrong *)

(** C2, on the code: [mergeRanges] is not idempotent.  On [bridging] the
    first pass widens the first range to [0..6] and leaves [5..7] beside
    it; the second pass merges these two. *)
Theorem mergeRanges_twice_differs :
  mergeRanges bridging = [mkRange 0 6; mkRange 5 7] /\
  mergeRanges (mergeRanges bridging) = [mkRange 0 7] /\
  mergeRanges (mergeRanges bridging) <> mergeRanges bridging.
Proof. repeat split. discriminate. Qed.

(** C3, on the code: two distinct ranges of the output of [mergeRanges]
    can overlap.  On [bridging] the output holds [0..6] and [5..7], and
    [findOverlappingRangeIndex] finds each in the other. *)
Theorem mergeRanges_output_overlaps :
  mergeRanges bridging = [mkRange 0 6; mkRange 5 7] /\
  findOverlappingRangeIndex (mkRange 0 6) [mkRange 5 7] = Some 0%nat /\
  findOverlappingRangeIndex (mkRange 5 7) [mkRange 0 6] = Some 0%nat.
Proof. repeat split. Qed.

(** C6, on the code: [diffRanges R R] is not always empty.  On [bridging]
    it returns the two inverted ranges [5..0] and [7..0], within every
    bound of at least two on the recursion. *)
Theorem diffRanges_self_not_empty (fuel : nat) :
  diffRanges (2 + fuel) bridging bridging = Some [mkRange 5 0; mkRange 7 0].
Proof. apply (diffRanges_fuel_mono 2); [lia|reflexivity]. Qed.

(** C1, on the code: [diffRanges] returns ranges that are not valid.  A
    second-set range that starts where the first-set range starts and
    ends inside it leaves the empty left remainder [0..0] in the output;
    a second-set range that starts before the first-set range and covers
    it leaves the inverted remainder [5..0]. *)
Theorem diffRanges_invalid_output (fuel : nat) :
  diffRanges (2 + fuel) [mkRange 0 10] [mkRange 0 5]
  = Some [mkRange 0 0; mkRange 6 10] /\
  diffRanges (1 + fuel) [mkRange 5 10] [mkRange 0 20]
  = Some [mkRange 5 0].
Proof.
  split.
  - apply (diffRanges_fuel_mono 2); [lia|reflexivity].
  - apply (diffRanges_fuel_mono 1); [lia|reflexivity].
Qed.

(** ** Strings *)

Lemma length_substring (s : string) (n m : nat) :
  String.length (substring n m s) = Nat.min m (String.length s - n).
Proof.
  revert n m. induction s as [|c s IH]; intros [|n] [|m]; simpl;
    try rewrite IH; try reflexivity; lia.
Qed.

Lemma strlen_nonneg (s : string) : 0 <= strlen s.
Proof. unfold strlen. lia. Qed.

Lemma strlen_slice (s : string) (start end_ : Z) :
  strlen (slice s start end_) =
  Z.max 0
    ((if end_ <? 0 then Z.max (strlen s + end_) 0 else Z.min end_ (strlen s))
     - (if start <? 0 then Z.max (strlen s + start) 0
        else Z.min start (strlen s))).
Proof.
  unfold slice. pose proof (strlen_nonneg s) as Hs.
  unfold strlen at 1. rewrite length_substring. fold (strlen s).
  unfold strlen in *.
  destruct (Z.ltb_spec end_ 0), (Z.ltb_spec start 0); lia.
Qed.

Lemma truthy_strlen (s : string) : truthy s = true <-> 0 < strlen s.
Proof.
  unfold strlen. destruct s; simpl; split; try discriminate; try lia.
Qed.

(** ** The projector *)

Section Projector.
Context {Payload : Type}.
Implicit Types (vi out : ValidationInput Payload).

Lemma getValRangesFromRange_fold (range : Range)
    (valRanges acc : list (ValidationInput Payload)) :
  fold_left
    (fun acc vi =>
       if (from range >=? vi_from vi)
          && (from range <=? vi_from vi + strlen (str vi))
       then
         let from' := from range - vi_from vi in
         let to' := from range - vi_from vi + (to range - from range) in
         let str' :=
           slice (str vi) (if from' >? 0 then from' - 1 else 0) to' in
         if truthy str'
         then acc ++ [ {| vi_from := from range; vi_to := to range;
                          str := str'; extra := extra vi |} ]
         else acc
       else acc)
    valRanges acc
  = acc ++ omap (projected range) valRanges.
Proof.
  revert acc. induction valRanges as [|vi l IH]; intros acc; simpl.
  - now rewrite app_nil_r.
  - rewrite IH. unfold projected.
    destruct ((from range >=? vi_from vi)
              && (from range <=? vi_from vi + strlen (str vi)));
      [|reflexivity].
    simpl. destruct (truthy _); [|reflexivity].
    now rewrite <- app_assoc.
Qed.

Lemma getValRangesFromRange_omap (range : Range)
    (valRanges : list (ValidationInput Payload)) :
  getValRangesFromRange range valRanges = omap (projected range) valRanges.
Proof. unfold getValRangesFromRange. now rewrite getValRangesFromRange_fold. Qed.

(** C4, as the code has it: a record that [getValRangesFromRange]
    emits is made from a record whose span holds the start of the range;
    it has the bounds of the range, the other fields of that record and a
    text that is not empty.  For a range with [from <= to] its text is at
    most one character longer than [to - from]; when the range ends
    inside the text of the record, [to - from] is the length of the text
    if the range starts where the record starts, and is one less than the
    length (the character before the range is kept) if it starts
    later. *)
Theorem getValRangesFromRange_emitted (range : Range)
    (valRanges : list (ValidationInput Payload)) out :
  out ∈ getValRangesFromRange range valRanges ->
  exists vi,
    vi ∈ valRanges /\
    vi_from vi <= from range <= vi_from vi + strlen (str vi) /\
    vi_from out = from range /\ vi_to out = to range /\
    extra out = extra vi /\
    0 < strlen (str out) /\
    (from range <= to range ->
     strlen (str out) <= vi_to out - vi_from out + 1) /\
    (from range = vi_from vi -> from range <= to range ->
     to range <= vi_from vi + strlen (str vi) ->
     vi_to out - vi_from out = strlen (str out)) /\
    (vi_from vi < from range -> from range <= to range ->
     to range <= vi_from vi + strlen (str vi) ->
     strlen (str out) = vi_to out - vi_from out + 1).
Proof.
  rewrite getValRangesFromRange_omap.
  intros (vi & Hvi & Hout)%list_elem_of_omap. exists vi.
  split; [assumption|]. unfold projected in Hout.
  destruct ((from range >=? vi_from vi)
            && (from range <=? vi_from vi + strlen (str vi))) eqn:Hc;
    [|discriminate].
  apply andb_true_iff in Hc as [H1%Z.geb_le H2%Z.leb_le].
  simpl in Hout. destruct (truthy _) eqn:Ht; [|discriminate].
  apply truthy_strlen in Ht. injection Hout as <-. simpl.
  rewrite strlen_slice in *. pose proof (strlen_nonneg (str vi)) as Hlen.
  rewrite Z.gtb_ltb in *.
  destruct (Z.ltb_spec 0 (from range - vi_from vi));
    [destruct (Z.ltb_spec (from range - vi_from vi - 1) 0)
    |change (0 <? 0) with false in *];
    destruct (Z.ltb_spec
                (from range - vi_from vi + (to range - from range)) 0);
    try (exfalso; lia);
    repeat split; lia.
Qed.
End Projector.

Lemma getValRangesFromRange_emitted_witness :
  mkVI 0 3 "hel"%string tt
    ∈ getValRangesFromRange (mkRange 0 3) [mkVI 0 10 "helloworld"%string tt] /\
  exists vi : ValidationInput unit,
    vi ∈ [mkVI 0 10 "helloworld"%string tt] /\
    vi_from vi <= 0 <= vi_from vi + strlen (str vi) /\
    0 = 0 /\ 3 = 3 /\ tt = extra vi /\ 0 < strlen "hel" /\
    (0 <= 3 -> strlen "hel" <= 3 - 0 + 1) /\
    (0 = vi_from vi -> 0 <= 3 -> 3 <= vi_from vi + strlen (str vi) ->
     3 - 0 = strlen "hel") /\
    (vi_from vi < 0 -> 0 <= 3 -> 3 <= vi_from vi + strlen (str vi) ->
     strlen "hel" = 3 - 0 + 1).
Proof.
  assert (Hin : mkVI 0 3 "hel"%string tt
    ∈ getValRangesFromRange (mkRange 0 3) [mkVI 0 10 "helloworld"%string tt]).
  { simpl. constructor. }
  split; [exact Hin|].
  exact (getValRangesFromRange_emitted (mkRange 0 3) _ _ Hin).
Defined.

(** C4, as stated, fails: projecting the range [6..10] out of the ten
    characters at [0..10] keeps the character before the range, so the
    emitted record spans 4 positions and holds the 5 characters of
    "world".  [diffValidationInputs] hands that record on. *)
Lemma getValRangesFromRange_length_differs :
  getValRangesFromRange (mkRange 6 10) [mkVI 0 10 "helloworld"%string tt]
  = [mkVI 6 10 "world"%string tt] /\
  diffValidationInputs 2 [mkVI 0 10 "helloworld"%string tt]
    [mkVI 3 5 "lo"%string tt]
  = Some [mkVI 0 3 "hel"%string tt; mkVI 6 10 "world"%string tt] /\
  10 - 6 <> strlen "world".
Proof. repeat split. discriminate. Qed.

(** ** The transaction range mapper *)

Lemma compact_length {A} (rs : list (option A)) :
  (length (compact rs) + countOmitted rs = length rs)%nat.
Proof.
  induction rs as [|[a|] rs IH]; simpl; unfold compact in *; simpl; lia.
Qed.

Lemma compact_Some {A} (l : list A) : compact (Some <$> l) = l.
Proof.
  unfold compact. induction l as [|x l IH]; simpl; [reflexivity|].
  f_equal. exact IH.
Qed.

Lemma compact_None {A} (n : nat) : compact (replicate n (@None A)) = [].
Proof. induction n; simpl; auto. Qed.

Lemma countOmitted_None {A} (n : nat) :
  countOmitted (replicate n (@None A)) = n.
Proof. induction n; simpl; auto. Qed.

(** A callback that leaves the store alone. *)
Lemma mapArray_pure {A B} (f : A -> Heap B) (g : A -> B) (l : list A) h :
  (forall x h', f x h' = Some (g x, h')) ->
  mapArray f l h = Some (g <$> l, h).
Proof.
  intros Hf. induction l as [|x l IH]; simpl; [reflexivity|].
  unfold hbind. rewrite Hf, IH. reflexivity.
Qed.

Lemma mapArray_length {A B} (f : A -> Heap B) (l : list A) h rs h' :
  mapArray f l h = Some (rs, h') -> length rs = length l.
Proof.
  revert h rs. induction l as [|x l IH]; intros h rs; simpl.
  - now intros [= <- <-].
  - unfold hbind. destruct (f x h) as [[y h1]|]; [|discriminate].
    destruct (mapArray f l h1) as [[ys h2]|] eqn:Hl; [|discriminate].
    intros [= <- <-]. simpl. f_equal. eapply IH, Hl.
Qed.

(** Whenever the mapper returns, the length of its result is the length
    of its input minus the number of ranges its callback omitted. *)
Lemma mapRangeThroughTransactions_length ranges at_time trs h rs h' :
  mapArray (mapOneRange at_time trs) ranges h = Some (rs, h') ->
  mapRangeThroughTransactions ranges at_time trs h = Some (compact rs, h') /\
  length (compact rs) = (length ranges - countOmitted rs)%nat.
Proof.
  intros Hrs. unfold mapRangeThroughTransactions, hbind. rewrite Hrs.
  split; [reflexivity|].
  pose proof (compact_length rs). apply mapArray_length in Hrs. lia.
Qed.

(** With its references all bound in the store, the mapper returns. *)
Lemma mapArray_mapOneRange_total at_time trs (ranges : list ref)
    (h : gmap ref Range) :
  (forall r, r ∈ ranges -> is_Some (h !! r)) ->
  exists rs h', mapArray (mapOneRange at_time trs) ranges h = Some (rs, h') /\
                dom h' = dom h.
Proof.
  revert h. induction ranges as [|r l IH]; intros h Hb; simpl.
  - exists [], h. auto.
  - assert (Hr : exists o h1, mapOneRange at_time trs r h = Some (o, h1)
                              /\ dom h1 = dom h).
    { unfold mapOneRange. destruct (length trs =? 1)%nat; [eexists _, h; eauto|].
      destruct (findIndex _ trs) as [i|]; [|eexists _, h; eauto].
      destruct (Hb r) as [o Ho]; [constructor|].
      unfold hbind, deref, assign, hret. rewrite Ho.
      eexists _, _. split; [reflexivity|].
      apply dom_insert_lookup_L. eauto. }
    destruct Hr as (o & h1 & Ho & Hdom).
    destruct (IH h1) as (rs & h2 & Hrs & Hdom2).
    { intros x Hx. apply elem_of_dom. rewrite Hdom. apply elem_of_dom.
      apply Hb. now constructor. }
    exists (o :: rs), h2. unfold hbind. rewrite Ho, Hrs.
    split; [reflexivity|congruence].
Qed.

(** C9: when the log of transactions holds exactly one record, the
    mapper returns the ranges it was given, whatever the time: the same
    references in the same order, over a store it has not written to. *)
Theorem mapRangeThroughTransactions_single ranges at_time trs
    (h : gmap ref Range) :
  length trs = 1%nat ->
  mapRangeThroughTransactions ranges at_time trs h = Some (ranges, h).
Proof.
  intros Hlen. unfold mapRangeThroughTransactions, hbind.
  rewrite (mapArray_pure _ Some).
  - unfold hret. now rewrite compact_Some.
  - intros r h'. unfold mapOneRange. rewrite Hlen. reflexivity.
Qed.

Lemma mapRangeThroughTransactions_single_witness :
  length [mkTr 1 (fun p => p + 3)] = 1%nat /\
  mapRangeThroughTransactions [0%nat; 1%nat] 7 [mkTr 1 (fun p => p + 3)]
    {[ 0%nat := mkRange 0 5; 1%nat := mkRange 8 9 ]}
  = Some ([0%nat; 1%nat], {[ 0%nat := mkRange 0 5; 1%nat := mkRange 8 9 ]}).
Proof.
  split; [reflexivity|].
  exact (mapRangeThroughTransactions_single
           _ 7 [mkTr 1 (fun p => p + 3)] _ eq_refl).
Defined.

(** C10: over an empty log of transactions the mapper returns the empty
    list for every list of ranges and every time, and writes to no
    object. *)
Theorem mapRangeThroughTransactions_empty_log ranges at_time
    (h : gmap ref Range) :
  mapRangeThroughTransactions ranges at_time [] h = Some ([], h).
Proof.
  unfold mapRangeThroughTransactions, hbind.
  rewrite (mapArray_pure _ (fun _ => None)) by reflexivity.
  unfold hret, compact. f_equal. f_equal.
  induction ranges; simpl; auto.
Qed.

Lemma findIndex_time_None at_time (trs : list Transaction) :
  (forall tr, tr ∈ trs -> time tr <> at_time) ->
  findIndex (fun tr => time tr =? at_time) trs = None.
Proof.
  intros Hno. apply findIndex_None. intros tr Htr.
  apply Z.eqb_neq. now apply Hno.
Qed.

(** C8, as the code has it: when no record of the log has the given time
    and the log does not hold exactly one record, the callback of the
    mapper omits every range; the result is the empty list, no object is
    written to, and the length of the result is the length of the input
    minus the number of omitted ranges. *)
Theorem mapRangeThroughTransactions_unmatched ranges at_time trs
    (h : gmap ref Range) :
  length trs <> 1%nat ->
  (forall tr, tr ∈ trs -> time tr <> at_time) ->
  mapArray (mapOneRange at_time trs) ranges h
  = Some (replicate (length ranges) None, h) /\
  mapRangeThroughTransactions ranges at_time trs h = Some ([], h) /\
  countOmitted (replicate (length ranges) (@None ref)) = length ranges /\
  length (@nil ref)
  = (length ranges - countOmitted (replicate (length ranges) (@None ref)))%nat.
Proof.
  intros Hlen Hno.
  assert (Hmap : mapArray (mapOneRange at_time trs) ranges h
                 = Some (replicate (length ranges) None, h)).
  { rewrite (mapArray_pure _ (fun _ => None)).
    - f_equal. f_equal. clear. induction ranges as [|r l IH]; simpl;
        [reflexivity|]. f_equal. exact IH.
    - intros r h'. unfold mapOneRange.
      apply Nat.eqb_neq in Hlen. rewrite Hlen.
      now rewrite findIndex_time_None. }
  split; [exact Hmap|].
  destruct (mapRangeThroughTransactions_length _ _ _ _ _ _ Hmap) as [Hrun _].
  rewrite compact_None in Hrun. split; [exact Hrun|].
  rewrite countOmitted_None. split; [reflexivity|]. simpl. lia.
Qed.

Lemma mapRangeThroughTransactions_unmatched_witness :
  length [mkTr 1 (fun p => p + 3); mkTr 2 (fun p => p * 2)] <> 1%nat /\
  (forall tr, tr ∈ [mkTr 1 (fun p => p + 3); mkTr 2 (fun p => p * 2)] ->
              time tr <> 7) /\
  mapRangeThroughTransactions [0%nat; 1%nat] 7
    [mkTr 1 (fun p => p + 3); mkTr 2 (fun p => p * 2)]
    {[ 0%nat := mkRange 0 5; 1%nat := mkRange 8 9 ]}
  = Some ([], {[ 0%nat := mkRange 0 5; 1%nat := mkRange 8 9 ]}).
Proof.
  assert (Hlen : length [mkTr 1 (fun p => p + 3); mkTr 2 (fun p => p * 2)]
                 <> 1%nat) by (simpl; lia).
  assert (Hno : forall tr,
             tr ∈ [mkTr 1 (fun p => p + 3); mkTr 2 (fun p => p * 2)] ->
             time tr <> 7).
  { intros tr Htr.
    repeat (apply elem_of_cons in Htr as [->|Htr]; [simpl; lia|]).
    inversion Htr. }
  split; [exact Hlen|]. split; [exact Hno|].
  exact (proj1 (proj2 (mapRangeThroughTransactions_unmatched
                         [0%nat; 1%nat] 7 _ _ Hlen Hno))).
Defined.

(** C8, as stated, fails: over a log of exactly one record the range is
    kept although no record has the given time. *)
Lemma mapRangeThroughTransactions_unmatched_kept :
  (forall tr, tr ∈ [mkTr 1 (fun p => p + 3)] -> time tr <> 7) /\
  mapRangeThroughTransactions [0%nat] 7 [mkTr 1 (fun p => p + 3)]
    {[ 0%nat := mkRange 0 5 ]}
  = Some ([0%nat], {[ 0%nat := mkRange 0 5 ]}).
Proof.
  split; [|reflexivity].
  intros tr Htr. apply elem_of_cons in Htr as [->|Htr]; [simpl; lia|].
  inversion Htr.
Qed.

(** C5, on the code: the mapper writes to the objects it is given.  The
    range object that held [0..5] before the call holds [2..7] after it,
    and the result holds the reference to that same object. *)
Theorem mapRangeThroughTransactions_mutates_input :
  mapRangeThroughTransactions [0%nat] 1
    [mkTr 1 (fun p => p + 1); mkTr 2 (fun p => p + 1)]
    {[ 0%nat := mkRange 0 5 ]}
  = Some ([0%nat], {[ 0%nat := mkRange 2 7 ]}) /\
  ({[ 0%nat := mkRange 0 5 ]} : gmap ref Range) !! 0%nat = Some (mkRange 0 5) /\
  ({[ 0%nat := mkRange 2 7 ]} : gmap ref Range) !! 0%nat = Some (mkRange 2 7).
Proof. repeat split. Qed.

(** * Further properties of the range algebra *)

(** X1: [findOverlappingRangeIndex] returns [i] exactly when the range at
    [i] overlaps and no range before [i] does: the first match wins. *)
Theorem findOverlappingRangeIndex_first_match (range : Range)
    (ranges : list Range) (i : nat) :
  findOverlappingRangeIndex range ranges = Some i <->
  (exists l, ranges !! i = Some l /\ overlaps range l = true) /\
  (forall j l, (j < i)%nat -> ranges !! j = Some l ->
               overlaps range l = false).
Proof.
  unfold findOverlappingRangeIndex. split.
  - intros Hi. split.
    + exact (findIndex_Some _ _ _ Hi).
    + exact (findIndex_first _ _ _ Hi).
  - intros [(l & Hl & Hov) Hbefore].
    destruct (findIndex (overlaps range) ranges) as [k|] eqn:Hk.
    + f_equal. destruct (findIndex_Some _ _ _ Hk) as (o & Ho & Hovo).
      destruct (lt_eq_lt_dec k i) as [[Hlt|Heq]|Hgt]; [|assumption|].
      * rewrite (Hbefore k o Hlt Ho) in Hovo. discriminate.
      * rewrite (findIndex_first _ _ _ Hk i l Hgt Hl) in Hov. discriminate.
    + rewrite findIndex_None in Hk. rewrite Hk in Hov; [discriminate|].
      apply list_elem_of_lookup. eauto.
Qed.

(** X2: on two ranges with [from <= to] the overlap test is the
    intersection test of closed intervals, and it is symmetric. *)
Theorem overlaps_valid (r l : Range) :
  valid r -> valid l ->
  (overlaps r l = true <-> from r <= to l /\ from l <= to r) /\
  overlaps r l = overlaps l r.
Proof.
  unfold valid. intros Hr Hl.
  assert (Hiff : forall a b, from a <= to a -> from b <= to b ->
            (overlaps a b = true <-> from a <= to b /\ from b <= to a)).
  { intros a b Ha Hb. rewrite overlaps_spec. lia. }
  split; [apply Hiff; assumption|].
  destruct (overlaps r l) eqn:Hrl, (overlaps l r) eqn:Hlr; try reflexivity.
  - apply Hiff in Hrl; [|assumption..].
    assert (overlaps l r = true) by (apply Hiff; [assumption..|lia]).
    congruence.
  - apply Hiff in Hlr; [|assumption..].
    assert (overlaps r l = true) by (apply Hiff; [assumption..|lia]).
    congruence.
Qed.

Lemma overlaps_valid_witness :
  valid (mkRange 0 5) /\ valid (mkRange 5 9) /\
  overlaps (mkRange 0 5) (mkRange 5 9) = overlaps (mkRange 5 9) (mkRange 0 5).
Proof.
  assert (H1 : valid (mkRange 0 5)) by (unfold valid; simpl; lia).
  assert (H2 : valid (mkRange 5 9)) by (unfold valid; simpl; lia).
  split; [exact H1|]. split; [exact H2|].
  exact (proj2 (overlaps_valid _ _ H1 H2)).
Defined.

(** The test is not symmetric once a range is inverted. *)
Example overlaps_not_symmetric :
  overlaps (mkRange 0 10) (mkRange 20 (-5)) = true /\
  overlaps (mkRange 20 (-5)) (mkRange 0 10) = false.
Proof. split; reflexivity. Qed.

Lemma mergeRange_contains (a b : Range) :
  contains (mergeRange a b) a /\ contains (mergeRange a b) b.
Proof. unfold contains. rewrite mergeRange_from, mergeRange_to. lia. Qed.

(** X3: [mergeRange] returns the smallest range that contains both of
    its arguments, whatever their order. *)
Theorem mergeRange_hull (a b : Range) :
  contains (mergeRange a b) a /\ contains (mergeRange a b) b /\
  (forall m, contains m a -> contains m b -> contains m (mergeRange a b)) /\
  mergeRange a b = mergeRange b a.
Proof.
  unfold contains. split; [|split; [|split]].
  - rewrite mergeRange_from, mergeRange_to. lia.
  - rewrite mergeRange_from, mergeRange_to. lia.
  - intros m. rewrite mergeRange_from, mergeRange_to. lia.
  - apply Range_eq; rewrite ?mergeRange_from, ?mergeRange_to; lia.
Qed.

Lemma mergeStep_length (acc : list Range) (r : Range) :
  (length acc <= length (mergeStep acc r) <= S (length acc))%nat.
Proof.
  unfold mergeStep. destruct (findOverlappingRangeIndex r acc) as [i|].
  - destruct (acc !! i); rewrite ?length_insert; lia.
  - rewrite length_app. simpl. lia.
Qed.

Lemma mergeStep_fold_length (rs acc : list Range) :
  (length acc <= length (fold_left mergeStep rs acc)
   <= length acc + length rs)%nat.
Proof.
  revert acc. induction rs as [|r rs IH]; intros acc; simpl; [lia|].
  pose proof (IH (mergeStep acc r)). pose proof (mergeStep_length acc r). lia.
Qed.

(** X4: [mergeRanges] never returns more ranges than it was given, and
    returns at least one for a list that is not empty. *)
Theorem mergeRanges_length (X : list Range) :
  (Nat.min 1 (length X) <= length (mergeRanges X) <= length X)%nat.
Proof.
  split; [|apply (mergeStep_fold_length X [])].
  destruct X as [|x X]; simpl; [lia|].
  pose proof (mergeStep_fold_length X (mergeStep [] x)) as Hlen.
  unfold mergeRanges. simpl in *. lia.
Qed.

Lemma contains_trans (a b c : Range) :
  contains a b -> contains b c -> contains a c.
Proof. unfold contains. lia. Qed.

Lemma contains_refl (a : Range) : contains a a.
Proof. unfold contains. lia. Qed.

Lemma mergeStep_contains_acc (acc : list Range) (r x : Range) :
  (exists m, m ∈ acc /\ contains m x) ->
  exists m, m ∈ mergeStep acc r /\ contains m x.
Proof.
  intros (m & Hm & Hmx). unfold mergeStep.
  destruct (findOverlappingRangeIndex r acc) as [i|] eqn:Hi.
  - destruct (acc !! i) as [l|] eqn:Hl; [|eauto].
    apply list_elem_of_lookup in Hm as [k Hk].
    destruct (decide (k = i)) as [->|Hne].
    + exists (mergeRange r l). split.
      * apply list_elem_of_insert. eapply lookup_lt_Some, Hl.
      * assert (m = l) by congruence. subst m.
        eapply contains_trans; [|exact Hmx]. apply mergeRange_contains.
    + exists m. split; [|assumption].
      apply list_elem_of_lookup. exists k.
      rewrite list_lookup_insert_ne by congruence. assumption.
  - exists m. split; [|assumption]. apply elem_of_app. now left.
Qed.

Lemma mergeStep_contains_new (acc : list Range) (r : Range) :
  exists m, m ∈ mergeStep acc r /\ contains m r.
Proof.
  unfold mergeStep.
  destruct (findOverlappingRangeIndex r acc) as [i|] eqn:Hi.
  - destruct (findIndex_Some _ _ _ Hi) as (l & Hl & _). rewrite Hl.
    exists (mergeRange r l). split.
    + apply list_elem_of_insert. eapply lookup_lt_Some, Hl.
    + apply mergeRange_contains.
  - exists r. split; [|apply contains_refl].
    apply elem_of_app. right. constructor.
Qed.

Lemma mergeStep_fold_contains (rs acc : list Range) (x : Range) :
  (exists m, m ∈ acc /\ contains m x) \/ x ∈ rs ->
  exists m, m ∈ fold_left mergeStep rs acc /\ contains m x.
Proof.
  revert acc. induction rs as [|r rs IH]; intros acc; simpl.
  - intros [H|H]; [assumption|inversion H].
  - intros [H|H]; apply IH.
    + left. now apply mergeStep_contains_acc.
    + apply elem_of_cons in H as [->|H]; [left|now right].
      apply mergeStep_contains_new.
Qed.

(** X5: [mergeRanges] loses no range: every range of the input is
    contained in a range of the output. *)
Theorem mergeRanges_contains_input (X : list Range) (x : Range) :
  x ∈ X -> exists m, m ∈ mergeRanges X /\ contains m x.
Proof. intros Hx. apply mergeStep_fold_contains. now right. Qed.

Lemma mergeRanges_contains_input_witness :
  mkRange 5 7 ∈ bridging /\
  exists m, m ∈ mergeRanges bridging /\ contains m (mkRange 5 7).
Proof.
  assert (Hin : mkRange 5 7 ∈ bridging).
  { unfold bridging. apply elem_of_cons. right. constructor. }
  split; [exact Hin|]. exact (mergeRanges_contains_input _ _ Hin).
Defined.

(** X6: [mergeRanges] invents no position: every position between the
    bounds of a range of the output lies between the bounds of a range
    of the input. *)
Theorem mergeRanges_positions_covered (X : list Range) (m : Range) (p : Z) :
  m ∈ mergeRanges X -> from m <= p <= to m -> covered X p.
Proof.
  intros Hm Hp. pose proof (within_mergeRanges X) as HX.
  rewrite Forall_forall in HX. now apply (HX m Hm).
Qed.

Lemma mergeRanges_positions_covered_witness :
  mkRange 0 6 ∈ mergeRanges bridging /\ 0 <= 4 <= 6 /\ covered bridging 4.
Proof.
  assert (Hin : mkRange 0 6 ∈ mergeRanges bridging) by constructor.
  assert (Hp : from (mkRange 0 6) <= 4 <= to (mkRange 0 6)) by (simpl; lia).
  split; [exact Hin|]. split; [exact Hp|].
  exact (mergeRanges_positions_covered _ _ _ Hin Hp).
Defined.

Lemma mergeStep_fold_Forall (P : Range -> Prop) (rs acc : list Range) :
  (forall r l, P r -> P l -> P (mergeRange r l)) ->
  Forall P rs -> Forall P acc -> Forall P (fold_left mergeStep rs acc).
Proof.
  intros HP. revert acc.
  induction rs as [|r rs IH]; intros acc Hrs Hacc; simpl; [assumption|].
  apply Forall_cons in Hrs as [Hr Hrs]. apply IH; [assumption|].
  unfold mergeStep. destruct (findOverlappingRangeIndex r acc) as [i|].
  - destruct (acc !! i) as [l|] eqn:Hl; [|assumption].
    apply Forall_insert; [assumption|]. apply HP; [assumption|].
    eapply Forall_lookup_1; eassumption.
  - apply Forall_app. split; [assumption|]. now constructor.
Qed.

(** X7: [mergeRanges] keeps the bounds in order: when every range of the
    input has [from <= to], so has every range of the output, and when
    every range of the input has [from < to], so has every range of the
    output. *)
Theorem mergeRanges_valid (X : list Range) :
  Forall valid X ->
  Forall valid (mergeRanges X) /\
  (Forall (fun x => from x < to x) X ->
   Forall (fun m => from m < to m) (mergeRanges X)).
Proof.
  intros HX. split; [|intros HX'];
    (apply mergeStep_fold_Forall; [|assumption|constructor]);
    unfold valid; intros r l Hr Hl;
    rewrite mergeRange_from, mergeRange_to; lia.
Qed.

Lemma mergeRanges_valid_witness :
  Forall valid bridging /\ Forall valid (mergeRanges bridging).
Proof.
  assert (HX : Forall valid bridging).
  { unfold bridging, valid. repeat constructor; simpl; lia. }
  split; [exact HX|]. exact (proj1 (mergeRanges_valid _ HX)).
Defined.

Lemma mergeStep_fold_fixed (rs acc : list Range) :
  fold_left mergeStep rs acc = acc ++ rs ->
  forall j b, rs !! j = Some b ->
    (forall a, a ∈ acc -> overlaps b a = false) /\
    (forall i a, (i < j)%nat -> rs !! i = Some a -> overlaps b a = false).
Proof.
  revert acc. induction rs as [|r rs IH]; intros acc Heq j b Hj;
    [discriminate|].
  simpl in Heq.
  assert (Hnone : findOverlappingRangeIndex r acc = None).
  { destruct (findOverlappingRangeIndex r acc) as [i|] eqn:Hi; [|reflexivity].
    exfalso. pose proof (mergeStep_fold_length rs (mergeStep acc r)) as Hlen.
    rewrite Heq, length_app in Hlen. simpl in Hlen.
    unfold mergeStep in Hlen. rewrite Hi in Hlen.
    destruct (acc !! i); rewrite ?length_insert in Hlen; lia. }
  unfold mergeStep in Heq at 2. rewrite Hnone in Heq.
  replace (acc ++ r :: rs) with ((acc ++ [r]) ++ rs) in Heq
    by now rewrite <- app_assoc.
  destruct j as [|j]; simpl in Hj.
  - injection Hj as <-. split; [|intros; lia].
    now apply findOverlappingRangeIndex_None.
  - destruct (IH _ Heq j b Hj) as [Hacc Hrs]. split.
    + intros a Ha. apply Hacc, elem_of_app. now left.
    + intros [|i] a Hi; simpl.
      * intros [= <-]. apply Hacc, elem_of_app. right. constructor.
      * apply Hrs. lia.
Qed.

Lemma mergeRanges_separated_inv (X : list Range) :
  mergeRanges X = X -> separated X.
Proof.
  intros Heq i j a b Hij Ha Hb.
  exact (proj2 (mergeStep_fold_fixed X [] Heq j b Hb) i a Hij Ha).
Qed.

(** X8: the lists that [mergeRanges] returns unchanged are exactly those
    of which no range overlaps a range before it. *)
Theorem mergeRanges_fixed_iff_separated (X : list Range) :
  mergeRanges X = X <-> separated X.
Proof.
  split; [apply mergeRanges_separated_inv|apply mergeRanges_separated].
Qed.

Lemma overlaps_false (range localRange : Range) :
  overlaps range localRange = false <->
  ~ ((from localRange <= from range <= to localRange) \/
     (from localRange <= to range <= to localRange) \/
     (from range <= from localRange /\ to localRange <= to range)).
Proof.
  rewrite <- overlaps_spec. destruct (overlaps range localRange); split;
    congruence.
Qed.

Lemma chain_separated (X : list Range) :
  Forall valid X -> chain X -> separated X.
Proof.
  intros HX Hch i j a b Hij Ha Hb.
  pose proof (Hch i j a b Hij Ha Hb).
  pose proof (Forall_lookup_1 _ _ _ _ HX Ha).
  pose proof (Forall_lookup_1 _ _ _ _ HX Hb).
  unfold valid in *. apply overlaps_false. lia.
Qed.

Lemma mergeStep_chain (acc : list Range) (r : Range) :
  Forall valid acc -> chain acc -> valid r ->
  (forall a, a ∈ acc -> from a <= from r) ->
  Forall valid (mergeStep acc r) /\ chain (mergeStep acc r) /\
  (forall a, a ∈ mergeStep acc r -> from a <= from r).
Proof.
  intros Hval Hch Hr Hle. unfold mergeStep.
  destruct (findOverlappingRangeIndex r acc) as [i|] eqn:Hi.
  - destruct (findIndex_Some _ _ _ Hi) as (l & Hl & Hov). rewrite Hl.
    apply overlaps_spec in Hov.
    pose proof (Forall_lookup_1 _ _ _ _ Hval Hl) as Hvl.
    assert (Hll : from l <= from r)
      by (apply Hle, list_elem_of_lookup; eauto).
    assert (Hlast : forall j b, (i < j)%nat -> acc !! j = Some b -> False).
    { intros j b Hij Hb. pose proof (Hch i j l b Hij Hl Hb).
      assert (from b <= from r) by (apply Hle, list_elem_of_lookup; eauto).
      unfold valid in *. lia. }
    assert (Hfrom : from (mergeRange r l) = from l)
      by (rewrite mergeRange_from; lia).
    split; [|split].
    + apply Forall_insert; [assumption|]. unfold valid in *.
      rewrite mergeRange_from, mergeRange_to. lia.
    + intros i' j' a b Hij Ha Hb.
      apply list_lookup_insert_Some in Ha as [(<- & <- & _)|[Hni Ha]];
        apply list_lookup_insert_Some in Hb as [(<- & <- & _)|[Hnj Hb]].
      * lia.
      * destruct (Hlast j' b Hij Hb).
      * rewrite Hfrom. exact (Hch i' i a l Hij Ha Hl).
      * exact (Hch i' j' a b Hij Ha Hb).
    + intros a Ha. apply list_elem_of_lookup in Ha as [k Hk].
      apply list_lookup_insert_Some in Hk as [(<- & <- & _)|[Hnk Hk]].
      * rewrite Hfrom. assumption.
      * apply Hle, list_elem_of_lookup. eauto.
  - rewrite findOverlappingRangeIndex_None in Hi. split; [|split].
    + apply Forall_app. split; [assumption|]. now constructor.
    + intros i' j' a b Hij Ha Hb.
      apply lookup_snoc_Some in Ha as [[Hia Ha]|[-> <-]];
        apply lookup_snoc_Some in Hb as [[Hjb Hb]|[-> <-]]; try lia.
      * exact (Hch i' j' a b Hij Ha Hb).
      * assert (Hin : a ∈ acc) by (apply list_elem_of_lookup; eauto).
        pose proof (Hle a Hin). pose proof (Hi a Hin) as Hno.
        apply overlaps_false in Hno. lia.
    + intros a Ha. apply elem_of_app in Ha as [Ha|Ha]; [auto|].
      apply list_elem_of_singleton in Ha as ->. lia.
Qed.

Lemma mergeStep_fold_chain (rs acc : list Range) :
  Forall valid acc -> chain acc -> Forall valid rs -> sortedByFrom rs ->
  (forall a r, a ∈ acc -> r ∈ rs -> from a <= from r) ->
  Forall valid (fold_left mergeStep rs acc) /\
  chain (fold_left mergeStep rs acc).
Proof.
  revert acc.
  induction rs as [|r rs IH]; intros acc Hacc Hch Hrs Hsorted Hle; simpl;
    [auto|].
  apply Forall_cons in Hrs as [Hr Hrs].
  destruct (mergeStep_chain acc r Hacc Hch Hr) as (Hacc' & Hch' & Hle').
  { intros a Ha. apply Hle; [assumption|constructor]. }
  apply IH; try assumption.
  - intros i j a b Hij Ha Hb. apply (Hsorted (S i) (S j)); [lia|assumption..].
  - intros a x Ha Hx. apply list_elem_of_lookup in Hx as [k Hk].
    etransitivity; [apply Hle', Ha|].
    apply (Hsorted 0%nat (S k)); [lia|reflexivity|assumption].
Qed.

(** X9: on a list sorted by [from] whose ranges have [from <= to],
    [mergeRanges] does merge: in its output each range ends before the
    next one starts, no range overlaps another, and a second pass changes
    nothing. *)
Theorem mergeRanges_sorted (X : list Range) :
  sortedByFrom X -> Forall valid X ->
  chain (mergeRanges X) /\ separated (mergeRanges X) /\
  mergeRanges (mergeRanges X) = mergeRanges X.
Proof.
  intros Hsorted HX.
  destruct (mergeStep_fold_chain X [] ltac:(constructor)) as [Hval Hch];
    try assumption.
  - intros i j a b _ Ha. discriminate.
  - intros a r Ha. inversion Ha.
  - assert (Hsep : separated (mergeRanges X))
      by (apply chain_separated; assumption).
    split; [assumption|]. split; [assumption|].
    now apply mergeRanges_separated.
Qed.

Lemma mergeRanges_sorted_witness :
  sortedByFrom [mkRange 0 2; mkRange 1 6; mkRange 5 7] /\
  Forall valid [mkRange 0 2; mkRange 1 6; mkRange 5 7] /\
  mergeRanges (mergeRanges [mkRange 0 2; mkRange 1 6; mkRange 5 7])
  = mergeRanges [mkRange 0 2; mkRange 1 6; mkRange 5 7].
Proof.
  assert (Hs : sortedByFrom [mkRange 0 2; mkRange 1 6; mkRange 5 7]).
  { intros i j a b Hij Ha Hb.
    destruct j as [|[|[|j]]]; simpl in Hb; try discriminate; try lia;
      destruct i as [|[|i]]; simpl in Ha; try lia;
      injection Ha as <-; injection Hb as <-; simpl; lia. }
  assert (Hv : Forall valid [mkRange 0 2; mkRange 1 6; mkRange 5 7]).
  { unfold valid. repeat constructor; simpl; lia. }
  split; [exact Hs|]. split; [exact Hv|].
  exact (proj2 (proj2 (mergeRanges_sorted _ Hs Hv))).
Defined.

(** * Further properties of [diffRanges] *)

Lemma mergeRanges_keeps_valid (X : list Range) :
  Forall valid X -> Forall valid (mergeRanges X).
Proof.
  intros HX. apply mergeStep_fold_Forall; [|assumption|constructor].
  unfold valid. intros r l Hr Hl. rewrite mergeRange_from, mergeRange_to. lia.
Qed.


Lemma diffRanges_single_unfold (k : nat) (r : Range) (B : list Range) :
  diffRanges (S k) [r] B
  = diffStep (diffRanges k) (mergeRanges B) (Some []) r.
Proof. reflexivity. Qed.

Lemma diffStep_no_overlap recur (sm acc : list Range) (r : Range) :
  findOverlappingRangeIndex r sm = None ->
  diffStep recur sm (Some acc) r = Some (acc ++ [r]).
Proof. intros H. unfold diffStep. simpl. now rewrite H. Qed.

Lemma diffStep_overlap recur (sm acc : list Range) (r : Range) i o :
  findOverlappingRangeIndex r sm = Some i -> sm !! i = Some o ->
  diffStep recur sm (Some acc) r
  = if to o >=? to r
    then if from r =? from o then Some acc
         else Some (acc ++ [mkRange (from r) (from o)])
    else rest ← recur [mkRange (to o + 1) (to r)] sm;
         Some (acc ++ mkRange (from r) (from o) :: rest).
Proof. intros H1 H2. unfold diffStep. simpl. now rewrite H1, H2. Qed.







Lemma diffStep_contained (k : nat) (r : Range) (sm acc out : list Range) :
  valid r -> Forall valid sm ->
  diffStep (diffRanges k) sm (Some acc) r = Some out ->
  exists new, out = acc ++ new /\ forall x, x ∈ new -> contains r x.
Proof.
  revert r sm acc out.
  induction k as [|k IH]; intros r sm acc out Hr Hsm;
    (destruct (findOverlappingRangeIndex r sm) as [i|] eqn:Hi;
     [|rewrite diffStep_no_overlap by assumption; intros [= <-];
       exists [r]; split; [reflexivity|];
       intros x ->%list_elem_of_singleton; apply contains_refl]);
    destruct (findIndex_Some _ _ _ Hi) as (o & Ho & Hov);
    rewrite (diffStep_overlap _ _ _ _ _ _ Hi Ho);
    pose proof (Forall_lookup_1 _ _ _ _ Hsm Ho) as Hvo;
    unfold valid in Hvo, Hr; apply overlaps_spec in Hov;
    (destruct (Z.geb_spec (to o) (to r));
     [destruct (from r =? from o); intros [= <-];
      [exists []; split; [now rewrite app_nil_r|]; intros x Hx; inversion Hx
      |exists [mkRange (from r) (from o)]; split; [reflexivity|];
       intros x ->%list_elem_of_singleton; unfold contains; simpl; lia]|]).
  - simpl. discriminate.
  - rewrite diffRanges_single_unfold.
    destruct (diffStep (diffRanges k) (mergeRanges sm) (Some [])
                (mkRange (to o + 1) (to r))) as [rest|] eqn:Hrest;
      [|discriminate].
    simpl. intros [= <-].
    apply IH in Hrest as (new & -> & Hnew);
      [|unfold valid; simpl; lia|now apply mergeRanges_keeps_valid].
    exists (mkRange (from r) (from o) :: new). split; [reflexivity|].
    intros x [->|Hx]%elem_of_cons.
    + unfold contains. simpl. lia.
    + apply Hnew in Hx. unfold contains in *. simpl in Hx. lia.
Qed.

Lemma fold_diffStep_contained (k : nat) (l sm acc out : list Range) :
  Forall valid l -> Forall valid sm ->
  fold_left (diffStep (diffRanges k) sm) l (Some acc) = Some out ->
  exists new, out = acc ++ new /\
              forall x, x ∈ new -> exists m, m ∈ l /\ contains m x.
Proof.
  revert acc. induction l as [|r l IH]; intros acc Hl Hsm; cbn [fold_left].
  - intros [= <-]. exists []. split; [now rewrite app_nil_r|].
    intros x Hx. inversion Hx.
  - apply Forall_cons in Hl as [Hr Hl].
    destruct (diffStep (diffRanges k) sm (Some acc) r) as [acc1|] eqn:H1;
      [|rewrite fold_diffStep_None; discriminate].
    apply diffStep_contained in H1 as (new1 & -> & Hnew1); [|assumption..].
    intros (new & -> & Hnew)%IH; [|assumption..].
    exists (new1 ++ new). split; [now rewrite app_assoc|].
    intros x [Hx|Hx]%elem_of_app.
    + exists r. split; [constructor|auto].
    + destruct (Hnew x Hx) as (m & Hm & Hmx). exists m.
      split; [now constructor|assumption].
Qed.

(** X12: with ranges of [from <= to] on both sides, [diffRanges] returns
    nothing that reaches outside the first set: every range of the result
    starts no earlier and ends no later than a merged range of the first
    set. *)
Theorem diffRanges_contained (fuel : nat) (A B out : list Range) (x : Range) :
  Forall valid A -> Forall valid B ->
  diffRanges fuel A B = Some out -> x ∈ out ->
  exists m, m ∈ mergeRanges A /\ contains m x.
Proof.
  intros HA HB Hout Hx. destruct fuel as [|k]; [discriminate|].
  simpl in Hout.
  apply fold_diffStep_contained in Hout as (new & -> & Hnew);
    [auto|now apply mergeRanges_keeps_valid..].
Qed.

Lemma diffRanges_contained_witness :
  Forall valid [mkRange 0 10] /\ Forall valid [mkRange 3 6] /\
  exists m, m ∈ mergeRanges [mkRange 0 10] /\ contains m (mkRange 7 10).
Proof.
  assert (HA : Forall valid [mkRange 0 10]).
  { unfold valid. repeat constructor; simpl; lia. }
  assert (HB : Forall valid [mkRange 3 6]).
  { unfold valid. repeat constructor; simpl; lia. }
  split; [exact HA|]. split; [exact HB|].
  refine (diffRanges_contained 2 _ _ [mkRange 0 3; mkRange 7 10] _
            HA HB eq_refl _).
  apply elem_of_cons. right. constructor.
Defined.

(** * Further properties of the projector and the differ *)

Lemma length_omap_le {A B} (f : A -> option B) (l : list A) :
  (length (omap f l) <= length l)%nat.
Proof.
  induction l as [|x l IH]; [reflexivity|].
  change (omap f (x :: l))
    with (match f x with Some y => y :: omap f l | None => omap f l end).
  destruct (f x); simpl; lia.
Qed.

Lemma omap_all_None {A B} (f : A -> option B) (l : list A) :
  (forall x, x ∈ l -> f x = None) -> omap f l = [].
Proof.
  induction l as [|x l IH]; intros H; [reflexivity|].
  change (omap f (x :: l))
    with (match f x with Some y => y :: omap f l | None => omap f l end).
  rewrite (H x) by constructor. apply IH. intros y Hy. apply H. now constructor.
Qed.

(** X13: [getValRangesFromRange] emits at most one record for each
    record it is given. *)
Theorem getValRangesFromRange_length {Payload} (range : Range)
    (valRanges : list (ValidationInput Payload)) :
  (length (getValRangesFromRange range valRanges) <= length valRanges)%nat.
Proof. rewrite getValRangesFromRange_omap. apply length_omap_le. Qed.

(** X14: a record is selected by the start of the range only: when
    [range.from] lies in the span of no record, nothing is emitted,
    wherever [range.to] lies. *)
Theorem getValRangesFromRange_start_outside {Payload} (range : Range)
    (valRanges : list (ValidationInput Payload)) :
  (forall vi, vi ∈ valRanges ->
     from range < vi_from vi \/ vi_from vi + strlen (str vi) < from range) ->
  getValRangesFromRange range valRanges = [].
Proof.
  intros Hout. rewrite getValRangesFromRange_omap. apply omap_all_None.
  intros vi Hvi. unfold projected.
  destruct (Z.geb_spec (from range) (vi_from vi)); simpl; [|reflexivity].
  destruct (Z.leb_spec (from range) (vi_from vi + strlen (str vi)));
    [|reflexivity].
  destruct (Hout vi Hvi); lia.
Qed.

Lemma getValRangesFromRange_start_outside_witness :
  (forall vi : ValidationInput unit,
     vi ∈ [mkVI 5 15 "helloworld"%string tt] ->
     from (mkRange 2 8) < vi_from vi \/
     vi_from vi + strlen (str vi) < from (mkRange 2 8)) /\
  getValRangesFromRange (mkRange 2 8) [mkVI 5 15 "helloworld"%string tt] = [].
Proof.
  assert (H : forall vi : ValidationInput unit,
             vi ∈ [mkVI 5 15 "helloworld"%string tt] ->
             from (mkRange 2 8) < vi_from vi \/
             vi_from vi + strlen (str vi) < from (mkRange 2 8)).
  { intros vi ->%list_elem_of_singleton. left. simpl. lia. }
  split; [exact H|]. exact (getValRangesFromRange_start_outside _ _ H).
Defined.

Lemma substring_all (s : string) : substring 0 (String.length s) s = s.
Proof. induction s as [|c s IH]; simpl; [reflexivity|]. now rewrite IH. Qed.

Lemma slice_all (s : string) : slice s 0 (strlen s) = s.
Proof.
  unfold slice. pose proof (strlen_nonneg s) as Hs.
  change (0 <? 0) with false. cbv iota.
  destruct (Z.ltb_spec (strlen s) 0); [lia|].
  rewrite Z.min_l, Z.min_id, Z.sub_0_r, Z.max_l by lia.
  unfold strlen. rewrite Nat2Z.id. apply substring_all.
Qed.

(** The record re-sliced by its own range is the record, with its [to]
    set to the end of its text. *)
Lemma projected_own_range {Payload} (vi : ValidationInput Payload) :
  0 < strlen (str vi) ->
  projected (validationInputToRange vi) vi
  = Some {| vi_from := vi_from vi; vi_to := vi_from vi + strlen (str vi);
            str := str vi; extra := extra vi |}.
Proof.
  intros Hlen. unfold projected, validationInputToRange. simpl.
  destruct (Z.geb_spec (vi_from vi) (vi_from vi)); [|lia].
  destruct (Z.leb_spec (vi_from vi) (vi_from vi + strlen (str vi))); [|lia].
  simpl. rewrite Z.sub_diag. change (0 >? 0) with false. cbv iota.
  replace (0 + (vi_from vi + strlen (str vi) - vi_from vi))
    with (strlen (str vi)) by lia.
  rewrite slice_all.
  destruct (truthy (str vi)) eqn:Ht; [reflexivity|].
  apply truthy_strlen in Hlen. congruence.
Qed.

(** X15: projecting a record with a text that is not empty on its own
    range gives the record back, its [to] set to the end of its text; a
    record that spans its text comes back unchanged. *)
Theorem getValRangesFromRange_own_range {Payload}
    (vi : ValidationInput Payload) :
  0 < strlen (str vi) ->
  getValRangesFromRange (validationInputToRange vi) [vi]
  = [ {| vi_from := vi_from vi; vi_to := vi_from vi + strlen (str vi);
         str := str vi; extra := extra vi |} ] /\
  (vi_to vi = vi_from vi + strlen (str vi) ->
   getValRangesFromRange (validationInputToRange vi) [vi] = [vi]).
Proof.
  intros Hlen. rewrite getValRangesFromRange_omap. simpl.
  rewrite projected_own_range by assumption. split; [reflexivity|].
  intros <-. now destruct vi.
Qed.

Lemma getValRangesFromRange_own_range_witness :
  0 < strlen "hello" /\
  getValRangesFromRange (validationInputToRange (mkVI 4 9 "hello"%string tt))
    [mkVI 4 9 "hello"%string tt]
  = [mkVI 4 9 "hello"%string tt].
Proof.
  assert (H : 0 < strlen (str (mkVI 4 9 "hello"%string tt)))
    by (vm_compute; reflexivity).
  split; [exact H|].
  exact (proj1 (getValRangesFromRange_own_range (mkVI 4 9 "hello"%string tt) H)).
Defined.

Lemma validationInputToRange_valid {Payload} (vi : ValidationInput Payload) :
  valid (validationInputToRange vi).
Proof. unfold valid. simpl. pose proof (strlen_nonneg (str vi)). lia. Qed.

(** A record whose range does not overlap the range of another record
    is not selected by the start of that range. *)
Lemma projected_other {Payload} (vi vj : ValidationInput Payload) :
  overlaps (validationInputToRange vi) (validationInputToRange vj) = false ->
  projected (validationInputToRange vi) vj = None.
Proof.
  intros Hno%overlaps_false. unfold projected. simpl in *.
  pose proof (strlen_nonneg (str vi)).
  destruct (Z.geb_spec (vi_from vi) (vi_from vj)); simpl; [|reflexivity].
  destruct (Z.leb_spec (vi_from vi) (vi_from vj + strlen (str vj)));
    [|reflexivity].
  lia.
Qed.

Lemma separated_overlaps_false (X : list Range) i j a b :
  Forall valid X -> separated X -> i <> j ->
  X !! i = Some a -> X !! j = Some b -> overlaps a b = false.
Proof.
  intros HX Hsep Hne Ha Hb.
  pose proof (Forall_lookup_1 _ _ _ _ HX Ha) as Hva.
  pose proof (Forall_lookup_1 _ _ _ _ HX Hb) as Hvb.
  destruct (lt_eq_lt_dec i j) as [[Hlt|Heq]|Hgt]; [|contradiction|].
  - pose proof (Hsep i j a b Hlt Ha Hb) as Hno.
    apply overlaps_false in Hno. apply overlaps_false.
    unfold valid in *. lia.
  - exact (Hsep j i b a Hgt Hb Ha).
Qed.

Lemma getValRangesFromRange_own_record {Payload}
    (inputs : list (ValidationInput Payload)) i vi :
  wellFormedInputs inputs -> inputs !! i = Some vi ->
  getValRangesFromRange (validationInputToRange vi) inputs = [vi].
Proof.
  intros [Hwf Hsep] Hi. rewrite getValRangesFromRange_omap.
  assert (HX : Forall valid (validationInputToRange <$> inputs)).
  { apply Forall_fmap, Forall_forall. intros x _.
    apply validationInputToRange_valid. }
  assert (Hother : forall j vj, j <> i -> inputs !! j = Some vj ->
                     projected (validationInputToRange vi) vj = None).
  { intros j vj Hne Hj. apply projected_other.
    apply (separated_overlaps_false _ i j _ _ HX Hsep); [congruence|..];
      rewrite list_lookup_fmap; [now rewrite Hi|now rewrite Hj]. }
  rewrite <- (take_drop_middle inputs i vi Hi) at 1.
  rewrite omap_app.
  change (omap (projected (validationInputToRange vi))
            (vi :: drop (S i) inputs))
    with (match projected (validationInputToRange vi) vi with
          | Some y => y :: omap (projected (validationInputToRange vi))
                             (drop (S i) inputs)
          | None => omap (projected (validationInputToRange vi))
                      (drop (S i) inputs)
          end).
  destruct (Hwf vi) as [Hto Hlen]; [apply list_elem_of_lookup; eauto|].
  rewrite projected_own_range by assumption.
  rewrite !omap_all_None.
  - simpl. rewrite <- Hto. now destruct vi.
  - intros x [k Hk]%list_elem_of_lookup. rewrite lookup_drop in Hk.
    apply (Hother (S i + k)%nat); [lia|assumption].
  - intros x [k Hk]%list_elem_of_lookup.
    apply lookup_take_Some in Hk as [Hk Hlt].
    apply (Hother k); [lia|assumption].
Qed.

Lemma concat_singletons {A B} (f : A -> B) (g : B -> list A) (l : list A) :
  (forall i x, l !! i = Some x -> g (f x) = [x]) ->
  concat (g <$> (f <$> l)) = l.
Proof.
  induction l as [|x l IH]; intros H; simpl; [reflexivity|].
  rewrite (H 0%nat x eq_refl). simpl. f_equal.
  apply IH. intros i y Hy. apply (H (S i)). exact Hy.
Qed.

(** X16: removing nothing gives the inputs back: on well-formed inputs
    (each record spans its text, which is not empty, and no record overlaps
    an earlier one) [diffValidationInputs] against the empty list returns
    the first list, whatever the bound on the recursion. *)
Theorem diffValidationInputs_nothing_removed {Payload P2} (fuel : nat)
    (inputs : list (ValidationInput Payload)) :
  wellFormedInputs inputs ->
  diffValidationInputs (S fuel) inputs (@nil (ValidationInput P2))
  = Some inputs.
Proof.
  intros Hwf. unfold diffValidationInputs.
  assert (Hdiff : diffRanges (S fuel) (validationInputToRange <$> inputs)
                    (validationInputToRange <$> @nil (ValidationInput P2))
                  = Some (validationInputToRange <$> inputs)).
  { simpl. rewrite (fold_diffStep_no_overlap _ _ _ []) by reflexivity.
    simpl. f_equal. apply mergeRanges_separated, Hwf. }
  rewrite Hdiff. simpl. f_equal. apply concat_singletons.
  intros i vi Hi. eapply getValRangesFromRange_own_record; eassumption.
Qed.

Lemma diffValidationInputs_nothing_removed_witness :
  wellFormedInputs [mkVI 0 5 "hello"%string tt; mkVI 7 12 "world"%string tt] /\
  diffValidationInputs 1
    [mkVI 0 5 "hello"%string tt; mkVI 7 12 "world"%string tt]
    (@nil (ValidationInput unit))
  = Some [mkVI 0 5 "hello"%string tt; mkVI 7 12 "world"%string tt].
Proof.
  assert (Hwf : wellFormedInputs
                  [mkVI 0 5 "hello"%string tt; mkVI 7 12 "world"%string tt]).
  { split.
    - intros vi Hvi.
      repeat (apply elem_of_cons in Hvi as [->|Hvi];
              [vm_compute; split; reflexivity|]).
      inversion Hvi.
    - apply mergeRanges_separated_inv. reflexivity. }
  split; [exact Hwf|].
  exact (diffValidationInputs_nothing_removed 0 _ Hwf).
Defined.

(** X17: diffing pre-merged inputs against themselves leaves nothing:
    when no range of the inputs overlaps an earlier one,
    [diffValidationInputs] of the list against itself is empty. *)
Theorem diffValidationInputs_self {Payload} (fuel : nat)
    (inputs : list (ValidationInput Payload)) :
  separated (validationInputToRange <$> inputs) ->
  diffValidationInputs (S fuel) inputs inputs = Some [].
Proof.
  intros Hsep. unfold diffValidationInputs.
  rewrite diffRanges_self_separated; [reflexivity|].
  now rewrite mergeRanges_separated.
Qed.

Lemma diffValidationInputs_self_witness :
  separated (validationInputToRange
               <$> [mkVI 0 5 "hello"%string tt; mkVI 7 12 "world"%string tt]) /\
  diffValidationInputs 1
    [mkVI 0 5 "hello"%string tt; mkVI 7 12 "world"%string tt]
    [mkVI 0 5 "hello"%string tt; mkVI 7 12 "world"%string tt]
  = Some [].
Proof.
  assert (Hsep : separated
            (validationInputToRange
               <$> [mkVI 0 5 "hello"%string tt; mkVI 7 12 "world"%string tt])).
  { apply mergeRanges_separated_inv. reflexivity. }
  split; [exact Hsep|]. exact (diffValidationInputs_self 0 _ Hsep).
Defined.

(** * Further properties of the transaction range mapper *)

Lemma mapThrough_fold (trs : list Transaction) (o : Range) :
  fold_left
    (fun acc tr =>
       {| from := mapping tr (from acc); to := mapping tr (to acc) |})
    trs o
  = mapThrough trs o.
Proof.
  revert o. induction trs as [|tr trs IH]; intros o; simpl.
  - now destruct o.
  - rewrite IH. reflexivity.
Qed.

Lemma mapOneRange_matched at_time trs (r : ref) (h : gmap ref Range) i o :
  length trs <> 1%nat ->
  findIndex (fun tr => time tr =? at_time) trs = Some i ->
  h !! r = Some o ->
  mapOneRange at_time trs r h
  = Some (Some r, <[r := mapThrough (drop i trs) o]> h).
Proof.
  intros Hlen%Nat.eqb_neq Hi Hr. unfold mapOneRange.
  rewrite Hlen, Hi. unfold hbind, deref, assign, hret.
  rewrite Hr, mapThrough_fold. reflexivity.
Qed.

Lemma mapArray_matched at_time trs i (ranges : list ref) :
  length trs <> 1%nat ->
  findIndex (fun tr => time tr =? at_time) trs = Some i ->
  forall h : gmap ref Range,
    (forall r, r ∈ ranges -> is_Some (h !! r)) ->
    exists h',
      mapArray (mapOneRange at_time trs) ranges h = Some (Some <$> ranges, h')
      /\ forall r : ref, h' !! r
                   = Nat.iter (count_occ Nat.eq_dec ranges r)
                       (mapThrough (drop i trs)) <$> h !! r.
Proof.
  intros Hlen Hi. induction ranges as [|x l IH]; intros h Hb.
  - exists h. split; [reflexivity|]. intros r. simpl.
    now destruct (h !! r).
  - destruct (Hb x) as [o Ho]; [constructor|].
    destruct (IH (<[x := mapThrough (drop i trs) o]> h)) as (h' & Hrun & Hh').
    { intros r Hr. destruct (decide (x = r)) as [->|Hne].
      - rewrite lookup_insert_eq. eauto.
      - rewrite lookup_insert_ne by assumption. apply Hb. now constructor. }
    exists h'. split.
    + cbn [mapArray]. unfold hbind.
      rewrite (mapOneRange_matched _ _ _ _ _ _ Hlen Hi Ho), Hrun.
      reflexivity.
    + intros r. rewrite Hh'. cbn [count_occ].
      destruct (Nat.eq_dec x r) as [->|Hne].
      * rewrite lookup_insert_eq, Ho. simpl. f_equal.
        symmetry. exact (Nat.iter_succ_r _ _ _).
      * now rewrite lookup_insert_ne.
Qed.

(** X18: when the log does not hold exactly one record and a record has
    the given time, the mapper returns the references it was given, in
    their order, and has overwritten the objects behind them: an object is
    taken through the position maps of the log, from the first record of
    that time to the end, once for each time its reference occurs in the
    list; an object the list does not refer to is left as it was. *)
Theorem mapRangeThroughTransactions_matched at_time trs i
    (ranges : list ref) (h : gmap ref Range) :
  length trs <> 1%nat ->
  findIndex (fun tr => time tr =? at_time) trs = Some i ->
  (forall r, r ∈ ranges -> is_Some (h !! r)) ->
  exists h',
    mapRangeThroughTransactions ranges at_time trs h = Some (ranges, h') /\
    forall r : ref, h' !! r
              = Nat.iter (count_occ Nat.eq_dec ranges r)
                  (mapThrough (drop i trs)) <$> h !! r.
Proof.
  intros Hlen Hi Hb.
  destruct (mapArray_matched _ _ _ ranges Hlen Hi h Hb) as (h' & Hrun & Hh').
  exists h'. split; [|assumption].
  unfold mapRangeThroughTransactions, hbind. rewrite Hrun.
  unfold hret. now rewrite compact_Some.
Qed.

Lemma mapRangeThroughTransactions_matched_witness :
  exists h',
    mapRangeThroughTransactions [0%nat; 0%nat] 2
      [mkTr 1 (fun p => p * 2); mkTr 2 (fun p => p + 1); mkTr 3 (fun p => p + 1)]
      {[ 0%nat := mkRange 0 5; 1%nat := mkRange 8 9 ]}
    = Some ([0%nat; 0%nat], h') /\
    h' !! 0%nat = Some (mkRange 4 9) /\ h' !! 1%nat = Some (mkRange 8 9).
Proof.
  destruct (mapRangeThroughTransactions_matched 2
              [mkTr 1 (fun p => p * 2); mkTr 2 (fun p => p + 1);
               mkTr 3 (fun p => p + 1)]
              1%nat [0%nat; 0%nat]
              {[ 0%nat := mkRange 0 5; 1%nat := mkRange 8 9 ]})
    as (h' & Hrun & Hh').
  - simpl. lia.
  - reflexivity.
  - intros r Hr.
    repeat (apply elem_of_cons in Hr as [->|Hr]; [vm_compute; eauto|]).
    inversion Hr.
  - exists h'. split; [exact Hrun|].
    split; rewrite Hh'; reflexivity.
Defined.

Lemma mapRangeThroughTransactions_single_store ranges at_time trs
    (h : gmap ref Range) :
  length trs = 1%nat ->
  mapRangeThroughTransactions ranges at_time trs h = Some (ranges, h).
Proof.
  intros Hlen. unfold mapRangeThroughTransactions, hbind.
  rewrite (mapArray_pure _ Some).
  - unfold hret. now rewrite compact_Some.
  - intros r h'. unfold mapOneRange. rewrite Hlen. reflexivity.
Qed.

(** When a record has the given time, the mapper reads every object it
    is given: it returns only if every reference is bound. *)
Lemma mapArray_bound at_time trs i (ranges : list ref) (h : gmap ref Range) :
  length trs <> 1%nat ->
  findIndex (fun tr => time tr =? at_time) trs = Some i ->
  (exists res, mapArray (mapOneRange at_time trs) ranges h = Some res) ->
  forall r, r ∈ ranges -> is_Some (h !! r).
Proof.
  intros Hlen Hi. revert h.
  induction ranges as [|x l IH]; intros h [res Hres] r Hr; [inversion Hr|].
  cbn [mapArray] in Hres. unfold hbind in Hres.
  destruct (h !! x) as [o|] eqn:Hx.
  - rewrite (mapOneRange_matched _ _ _ _ _ _ Hlen Hi Hx) in Hres.
    apply elem_of_cons in Hr as [->|Hr]; [eauto|].
    destruct (mapArray _ l _) as [[rs h1]|] eqn:Hl; [|discriminate].
    specialize (IH _ (ex_intro _ _ Hl) r Hr).
    destruct (decide (x = r)) as [->|Hne]; [eauto|].
    now rewrite lookup_insert_ne in IH.
  - exfalso. unfold mapOneRange in Hres.
    apply Nat.eqb_neq in Hlen. rewrite Hlen, Hi in Hres.
    unfold hbind, deref in Hres. rewrite Hx in Hres. discriminate.
Qed.

Lemma mapPosition_monotone (trs : list Transaction) :
  (forall tr, tr ∈ trs -> monotone (mapping tr)) ->
  monotone (mapPosition trs).
Proof.
  unfold mapPosition.
  induction trs as [|tr trs IH]; intros Hm p q Hpq; simpl; [assumption|].
  apply IH.
  - intros x Hx. apply Hm. now constructor.
  - apply (Hm tr); [constructor|assumption].
Qed.

Lemma iter_valid (f : Range -> Range) (n : nat) (o : Range) :
  (forall x, valid x -> valid (f x)) -> valid o -> valid (Nat.iter n f o).
Proof. intros Hf Ho. induction n; simpl; auto. Qed.

(** X19: position maps that keep the order of positions keep the bounds
    of the ranges in order: if every object of the store has [from <= to]
    before the call, and every map of the log is monotone, every object
    has [from <= to] after the call. *)
Theorem mapRangeThroughTransactions_keeps_valid at_time trs
    (ranges : list ref) (h h' : gmap ref Range) out :
  (forall tr, tr ∈ trs -> monotone (mapping tr)) ->
  (forall r o, h !! r = Some o -> valid o) ->
  mapRangeThroughTransactions ranges at_time trs h = Some (out, h') ->
  forall r o, h' !! r = Some o -> valid o.
Proof.
  intros Hmono Hvalid Hrun.
  destruct (decide (length trs = 1%nat)) as [Hone|Hlen].
  { rewrite mapRangeThroughTransactions_single_store in Hrun by assumption.
    injection Hrun as <- <-. assumption. }
  destruct (findIndex (fun tr => time tr =? at_time) trs) as [i|] eqn:Hi.
  - assert (Hb : forall r, r ∈ ranges -> is_Some (h !! r)).
    { apply (mapArray_bound at_time trs i ranges h); try assumption.
      unfold mapRangeThroughTransactions, hbind in Hrun.
      destruct (mapArray _ ranges h) as [[rs h1]|]; [eauto|discriminate]. }
    destruct (mapArray_matched _ _ _ ranges Hlen Hi h Hb) as (h1 & Hrun1 & Hh1).
    unfold mapRangeThroughTransactions, hbind in Hrun. rewrite Hrun1 in Hrun.
    injection Hrun as <- <-. intros r o. rewrite Hh1.
    destruct (h !! r) as [o0|] eqn:Hr; simpl; [|discriminate].
    intros [= <-]. apply iter_valid; [|eauto].
    intros x Hx. unfold valid, mapThrough. simpl.
    apply mapPosition_monotone; [|exact Hx].
    intros tr Htr. apply Hmono. exact (subseteq_drop i trs tr Htr).
  - unfold mapRangeThroughTransactions, hbind in Hrun.
    rewrite (mapArray_pure _ (fun _ => None)) in Hrun.
    + injection Hrun as <- <-. assumption.
    + intros r0 h0. unfold mapOneRange.
      apply Nat.eqb_neq in Hlen. now rewrite Hlen, Hi.
Qed.

Lemma mapRangeThroughTransactions_keeps_valid_witness :
  valid (mkRange 2 7).
Proof.
  refine (mapRangeThroughTransactions_keeps_valid 1
            [mkTr 1 (fun p => p + 1); mkTr 2 (fun p => p + 1)]
            [0%nat] {[ 0%nat := mkRange 0 5 ]} {[ 0%nat := mkRange 2 7 ]}
            [0%nat] _ _ eq_refl 0%nat (mkRange 2 7) eq_refl).
  - intros tr Htr.
    repeat (apply elem_of_cons in Htr as [->|Htr];
            [intros p q Hpq; simpl; lia|]).
    inversion Htr.
  - intros r o [_ <-]%lookup_singleton_Some. unfold valid. simpl. lia.
Defined.

(** * Properties of the block expander *)

Section BlockExpander.
Context {Pos : Type} (doc : Doc Pos).

Lemma expander_fold (ranges acc : list Range) :
  fold_left
    (fun (oacc : option (list Range)) (range : Range) =>
       acc ← oacc;
       expandedRange ←
         expandRange {| from := from range; to := to range |} doc;
       Some (acc ++ [ {| from := from expandedRange;
                         to := clamp (to expandedRange)
                                 (content_size doc) |} ]))
    ranges (Some acc)
  = (expanded ← mapM (expandedClamped doc) ranges; Some (acc ++ expanded)).
Proof.
  revert acc. induction ranges as [|r l IH]; intros acc.
  - simpl. now rewrite app_nil_r.
  - cbn [fold_left mapM].
    replace {| from := from r; to := to r |} with r by now destruct r.
    assert (Hc : expandedClamped doc r
                 = (e ← expandRange r doc;
                    Some {| from := from e;
                            to := clamp (to e) (content_size doc) |}))
      by reflexivity.
    rewrite Hc. clear Hc.
    destruct (expandRange r doc) as [e|]; simpl.
    + rewrite IH. destruct (mapM (expandedClamped doc) l); simpl;
        [|reflexivity].
      now rewrite <- app_assoc.
    + clear. induction l; simpl; auto.
Qed.

Lemma getRangesOfParentBlockNodes_mapM (ranges : list Range) :
  getRangesOfParentBlockNodes ranges doc
  = (expanded ← mapM (expandedClamped doc) ranges;
     Some (mergeRanges (ranges ++ expanded))).
Proof.
  unfold getRangesOfParentBlockNodes. rewrite expander_fold.
  now destruct (mapM (expandedClamped doc) ranges).
Qed.

(** X20: [getRangesOfParentBlockNodes] fails exactly when [expandRange]
    fails on one of the ranges: one position that does not resolve, or
    one range without parent block, loses the whole result. *)
Theorem getRangesOfParentBlockNodes_fails_iff (ranges : list Range) :
  getRangesOfParentBlockNodes ranges doc = None <->
  exists range, range ∈ ranges /\ expandRange range doc = None.
Proof.
  rewrite getRangesOfParentBlockNodes_mapM.
  destruct (mapM (expandedClamped doc) ranges) as [expanded|] eqn:Hm; simpl.
  - split; [discriminate|]. intros (r & Hr & Hnone). exfalso.
    apply mapM_Some_1 in Hm.
    apply list_elem_of_lookup in Hr as [i Hi].
    destruct (Forall2_lookup_l _ _ _ _ _ Hm Hi) as (e & _ & He).
    unfold expandedClamped in He. rewrite Hnone in He. discriminate.
  - split; [intros _|reflexivity].
    apply mapM_None_1 in Hm. apply Exists_exists in Hm as (r & Hr & Hnone).
    exists r. split; [assumption|].
    unfold expandedClamped in Hnone.
    destruct (expandRange r doc); [|reflexivity].
    simpl in Hnone. discriminate.
Qed.

(** X21: when [getRangesOfParentBlockNodes] returns, its result contains
    every range it was given and, for every such range, the range of the
    parent block with its end clamped to the size of the document. *)
Theorem getRangesOfParentBlockNodes_contains (ranges out : list Range)
    (range : Range) :
  getRangesOfParentBlockNodes ranges doc = Some out -> range ∈ ranges ->
  (exists m, m ∈ out /\ contains m range) /\
  (exists e m, expandRange range doc = Some e /\ m ∈ out /\
               contains m {| from := from e;
                             to := clamp (to e) (content_size doc) |}).
Proof.
  rewrite getRangesOfParentBlockNodes_mapM.
  destruct (mapM (expandedClamped doc) ranges) as [expanded|] eqn:Hm;
    [|discriminate].
  simpl. intros [= <-] Hr. split.
  - apply mergeStep_fold_contains. right. apply elem_of_app. now left.
  - apply mapM_Some_1 in Hm.
    apply list_elem_of_lookup in Hr as [i Hi].
    destruct (Forall2_lookup_l _ _ _ _ _ Hm Hi) as (c & Hc & He).
    unfold expandedClamped in He.
    destruct (expandRange range doc) as [e|]; [|discriminate].
    simpl in He. injection He as <-.
    destruct (mergeStep_fold_contains (ranges ++ expanded) []
                {| from := from e;
                   to := clamp (to e) (content_size doc) |})
      as (m & Hm' & Hcont).
    { right. apply elem_of_app. right. apply list_elem_of_lookup. eauto. }
    exists e, m. auto.
Qed.

(** X22: the expanded ranges never reach past the document: when no
    range given ends after [doc.content.size], no range returned does. *)
Theorem getRangesOfParentBlockNodes_bounded (ranges out : list Range) :
  getRangesOfParentBlockNodes ranges doc = Some out ->
  Forall (fun r => to r <= content_size doc) ranges ->
  Forall (fun m => to m <= content_size doc) out.
Proof.
  rewrite getRangesOfParentBlockNodes_mapM.
  destruct (mapM (expandedClamped doc) ranges) as [expanded|] eqn:Hm;
    [|discriminate].
  simpl. intros [= <-] Hle.
  apply mergeStep_fold_Forall; [| |constructor].
  - intros r l Hr Hl. rewrite mergeRange_to. lia.
  - apply Forall_app. split; [assumption|].
    apply mapM_Some_1 in Hm. apply Forall_forall. intros c Hc.
    apply list_elem_of_lookup in Hc as [i Hi].
    destruct (Forall2_lookup_r _ _ _ _ _ Hm Hi) as (r & _ & He).
    unfold expandedClamped in He.
    destruct (expandRange r doc) as [e|]; [|discriminate].
    simpl in He. injection He as <-. simpl. unfold clamp.
    destruct (Z.leb_spec (to e) (content_size doc)); lia.
Qed.
End BlockExpander.

(** * Properties of [getTextMaps] *)

Lemma append_cons (c : Ascii.ascii) (s1 s2 : string) :
  (String c s1 ++ s2)%string = String c (s1 ++ s2).
Proof. reflexivity. Qed.

Lemma append_nil_r (s : string) : (s ++ "")%string = s.
Proof.
  induction s as [|c s IH]; [reflexivity|]. now rewrite append_cons, IH.
Qed.

Lemma append_assoc (s1 s2 s3 : string) :
  ((s1 ++ s2) ++ s3)%string = (s1 ++ (s2 ++ s3))%string.
Proof.
  induction s1 as [|c s1 IH]; [reflexivity|]. now rewrite !append_cons, IH.
Qed.

Lemma strlen_append (s1 s2 : string) :
  strlen (s1 ++ s2) = strlen s1 + strlen s2.
Proof.
  unfold strlen. induction s1 as [|c s1 IH]; [reflexivity|].
  rewrite append_cons. simpl String.length. rewrite !Nat2Z.inj_succ, IH. lia.
Qed.

Lemma joined_snoc (l : list string) (s : string) :
  joined (l ++ [s]) = (joined l ++ s)%string.
Proof.
  unfold joined. induction l as [|x l IH]; simpl.
  - apply append_nil_r.
  - rewrite IH. now rewrite append_assoc.
Qed.

(** [textNodes[index - 1]] at the index that follows [pre] is the last
    entry of [pre]. *)
Lemma previous_wrapper (textNodes pre rest : list TextNodeWrapper) w :
  textNodes = pre ++ w :: rest ->
  match length pre with
  | O => None
  | S index' => textNodes !! index'
  end = last pre.
Proof.
  intros ->. rewrite last_lookup.
  destruct (length pre) as [|n] eqn:Hn.
  - now apply nil_length_inv in Hn as ->.
  - simpl. apply lookup_app_l. lia.
Qed.

(** The [reduce] of [getTextMaps] keeps every property that its callback
    keeps from one prefix of the text nodes to the next. *)
Lemma getTextMaps_fold_inv (I : list TextNodeWrapper -> TextMapAcc -> Prop)
    (textNodes : list TextNodeWrapper) :
  (forall pre w a, I pre a -> (exists rest, textNodes = pre ++ w :: rest) ->
     exists a', addTextNode (last pre) a w = Some a' /\ I (pre ++ [w]) a') ->
  forall rest pre a, textNodes = pre ++ rest -> I pre a ->
    exists a',
      fold_left (getTextMapsStep textNodes)
        (zip (seq (length pre) (length rest)) rest) (Some a) = Some a'
      /\ I textNodes a'.
Proof.
  intros Hstep. induction rest as [|w rest IH]; intros pre a Heq Ha.
  - exists a. rewrite app_nil_r in Heq. subst pre. auto.
  - destruct (Hstep pre w a Ha) as (a1 & Ha1 & HI1); [eauto|].
    destruct (IH (pre ++ [w]) a1) as (a' & Hfold & HI');
      [now rewrite <- app_assoc|assumption|].
    exists a'. split; [|assumption].
    rewrite length_app, Nat.add_1_r in Hfold.
    cbn [length seq zip zip_with fold_left].
    unfold getTextMapsStep at 2. cbn [mbind option_bind].
    rewrite (previous_wrapper _ _ _ _ Heq), Ha1. exact Hfold.
Qed.

Lemma getTextMaps_inv (I : list TextNodeWrapper -> TextMapAcc -> Prop)
    (textNodes : list TextNodeWrapper) :
  (forall pre w a, I pre a -> (exists rest, textNodes = pre ++ w :: rest) ->
     exists a', addTextNode (last pre) a w = Some a' /\ I (pre ++ [w]) a') ->
  I [] {| positionMap := []; acc_length := 0 |} ->
  exists a, getTextMaps textNodes = Some (positionMap a) /\ I textNodes a.
Proof.
  intros Hstep Hinit.
  destruct (getTextMaps_fold_inv I textNodes Hstep textNodes [] _ eq_refl Hinit)
    as (a & Hfold & Ha).
  exists a. split; [|assumption].
  unfold getTextMaps. simpl in Hfold. now rewrite Hfold.
Qed.

Lemma snoc_of_last {A} (l : list A) (x : A) :
  last l = Some x -> l = take (length l - 1) l ++ [x].
Proof.
  intros Hlast. destruct l as [|y l'] using rev_ind; [discriminate|].
  rewrite last_snoc in Hlast. injection Hlast as ->.
  rewrite length_app. simpl.
  replace (length l' + 1 - 1)%nat with (length l') by lia.
  now rewrite take_app_length.
Qed.

Lemma last_nonempty {A} (l : list A) : l <> [] -> is_Some (last l).
Proof.
  destruct l as [|y l'] using rev_ind; [congruence|].
  rewrite last_snoc. eauto.
Qed.

(** What the callback keeps: every record spans its text, the texts of
    the records are the texts of the nodes read so far, there are no more
    records than nodes, and there is a record once there is a node. *)
Lemma addTextNode_keeps (pre : list TextNodeWrapper) (w : TextNodeWrapper)
    (a : TextMapAcc) :
  (pre <> [] -> positionMap a <> []) ->
  Forall (fun vi => vi_to vi = vi_from vi + strlen (str vi)) (positionMap a) ->
  joined (str <$> positionMap a) = joined (wrapperText <$> pre) ->
  (length (positionMap a) <= length pre)%nat ->
  exists a',
    addTextNode (last pre) a w = Some a' /\
    positionMap a' <> [] /\
    Forall (fun vi => vi_to vi = vi_from vi + strlen (str vi))
      (positionMap a') /\
    joined (str <$> positionMap a') = joined (wrapperText <$> (pre ++ [w])) /\
    (length (positionMap a') <= length (pre ++ [w]))%nat.
Proof.
  intros Hne Hspan Htext Hlen. unfold addTextNode.
  rewrite fmap_snoc, joined_snoc. simpl. fold (wrapperText w).
  destruct (match last pre with
            | Some previous => Nat.eqb (parent w) (parent previous)
            | None => false
            end) eqn:Hshare.
  - assert (Hpre : pre <> []) by (intros ->; discriminate).
    destruct (last_nonempty _ (Hne Hpre)) as [m Hm]. rewrite Hm. simpl.
    eexists. split; [reflexivity|]. simpl.
    pose proof (snoc_of_last _ _ Hm) as Hsplit.
    set (pm := take (length (positionMap a) - 1) (positionMap a)) in *.
    rewrite Hsplit in Hspan, Htext, Hlen.
    rewrite fmap_snoc, joined_snoc in Htext. simpl in Htext.
    apply Forall_app in Hspan as [Hspan _].
    rewrite length_app in *. simpl in *.
    split; [now destruct pm|].
    split; [|split; [|rewrite ?length_app; simpl; lia]].
    + apply Forall_app. split; [assumption|]. now repeat constructor.
    + rewrite fmap_snoc, joined_snoc. simpl.
      now rewrite <- Htext, append_assoc.
  - eexists. split; [reflexivity|]. simpl.
    rewrite length_app in *. simpl.
    split; [now destruct (positionMap a)|].
    split; [|split; [|rewrite ?length_app; simpl; lia]].
    + apply Forall_app. split; [assumption|]. now repeat constructor.
    + rewrite fmap_snoc, joined_snoc. simpl. now rewrite Htext.
Qed.

Lemma getTextMaps_keeps (textNodes : list TextNodeWrapper) :
  exists out,
    getTextMaps textNodes = Some out /\
    Forall (fun vi => vi_to vi = vi_from vi + strlen (str vi)) out /\
    joined (str <$> out) = joined (wrapperText <$> textNodes) /\
    (length out <= length textNodes)%nat.
Proof.
  destruct (getTextMaps_inv
              (fun pre a =>
                 (pre <> [] -> positionMap a <> []) /\
                 Forall (fun vi => vi_to vi = vi_from vi + strlen (str vi))
                   (positionMap a) /\
                 joined (str <$> positionMap a)
                 = joined (wrapperText <$> pre) /\
                 (length (positionMap a) <= length pre)%nat)
              textNodes) as (a & Hrun & _ & Hspan & Htext & Hlen).
  - intros pre w a (Hne & Hspan & Htext & Hlen) _.
    destruct (addTextNode_keeps pre w a Hne Hspan Htext Hlen)
      as (a' & Hrun & Hne' & H').
    exists a'. split; [assumption|]. split; [auto|assumption].
  - simpl. repeat split; [congruence|constructor|lia].
  - exists (positionMap a). auto.
Qed.

(** X23: [getTextMaps] never throws, although it reads
    [previousMap.from] without a guard, and every record it returns spans
    its text: [to - from] is the length of [str]. *)
Theorem getTextMaps_spans (textNodes : list TextNodeWrapper) :
  exists out,
    getTextMaps textNodes = Some out /\
    Forall (fun vi => vi_to vi - vi_from vi = strlen (str vi)) out.
Proof.
  destruct (getTextMaps_keeps textNodes) as (out & Hrun & Hspan & _).
  exists out. split; [assumption|].
  eapply Forall_impl; [exact Hspan|]. intros vi Hvi. simpl in Hvi. lia.
Qed.

(** X24: [getTextMaps] keeps the text: the texts of the records, one
    after the other, are the texts of the nodes, one after the other; and
    it returns no more records than there are nodes. *)
Theorem getTextMaps_text (textNodes : list TextNodeWrapper) out :
  getTextMaps textNodes = Some out ->
  joined (str <$> out) = joined (wrapperText <$> textNodes) /\
  (length out <= length textNodes)%nat.
Proof.
  destruct (getTextMaps_keeps textNodes) as (out' & Hrun & _ & Htext & Hlen).
  rewrite Hrun. intros [= <-]. auto.
Qed.

Lemma getTextMaps_text_witness :
  getTextMaps [mkWrapper (Some "ab"%string) 1%nat 1;
               mkWrapper (Some "cde"%string) 1%nat 3;
               mkWrapper (Some "q"%string) 2%nat 20]
  = Some [mkVI 1 6 "abcde"%string tt; mkVI 20 21 "q"%string tt] /\
  joined (str <$> [mkVI 1 6 "abcde"%string tt; mkVI 20 21 "q"%string tt])
  = joined (wrapperText
              <$> [mkWrapper (Some "ab"%string) 1%nat 1;
                   mkWrapper (Some "cde"%string) 1%nat 3;
                   mkWrapper (Some "q"%string) 2%nat 20]).
Proof.
  split; [reflexivity|].
  exact (proj1 (getTextMaps_text
                  [mkWrapper (Some "ab"%string) 1%nat 1;
                   mkWrapper (Some "cde"%string) 1%nat 3;
                   mkWrapper (Some "q"%string) 2%nat 20]
                  [mkVI 1 6 "abcde"%string tt; mkVI 20 21 "q"%string tt]
                  eq_refl)).
Defined.

(** X25: text nodes of which no two neighbours share their parent give
    one record each, at the position of the node and with its text. *)
Theorem getTextMaps_distinct_parents (textNodes : list TextNodeWrapper) :
  (forall i w1 w2, textNodes !! i = Some w1 -> textNodes !! S i = Some w2 ->
                   parent w2 <> parent w1) ->
  getTextMaps textNodes = Some (wrapperRecord <$> textNodes).
Proof.
  intros Hdiff.
  destruct (getTextMaps_inv
              (fun pre a => positionMap a = wrapperRecord <$> pre) textNodes)
    as (a & Hrun & Ha); [|reflexivity|now rewrite Hrun, Ha].
  intros pre w a Ha [rest Heq]. unfold addTextNode.
  assert (Hshare : match last pre with
                   | Some previous => Nat.eqb (parent w) (parent previous)
                   | None => false
                   end = false).
  { destruct (last pre) as [pw|] eqn:Hlast; [|reflexivity].
    apply Nat.eqb_neq. apply snoc_of_last in Hlast.
    set (pre' := take (length pre - 1) pre) in *.
    assert (Hnodes : textNodes = pre' ++ pw :: w :: rest)
      by (rewrite Heq, Hlast at 1; now rewrite <- app_assoc).
    apply (Hdiff (length pre')); rewrite Hnodes.
    - now rewrite list_lookup_middle.
    - rewrite lookup_app_r by lia.
      now replace (S (length pre') - length pre')%nat with 1%nat by lia. }
  rewrite Hshare. eexists. split; [reflexivity|]. simpl.
  now rewrite Ha, fmap_snoc.
Qed.

Lemma getTextMaps_distinct_parents_witness :
  getTextMaps [mkWrapper (Some "ab"%string) 1%nat 1;
               mkWrapper None 2%nat 5;
               mkWrapper (Some "q"%string) 1%nat 9]
  = Some [mkVI 1 3 "ab"%string tt; mkVI 5 5 ""%string tt;
          mkVI 9 10 "q"%string tt].
Proof.
  refine (getTextMaps_distinct_parents
            [mkWrapper (Some "ab"%string) 1%nat 1;
             mkWrapper None 2%nat 5;
             mkWrapper (Some "q"%string) 1%nat 9] _).
  intros [|[|i]] w1 w2 H1 H2; simpl in *; try discriminate;
    injection H1 as <-; injection H2 as <-; simpl; lia.
Defined.

(** X26: text nodes that all share the parent of the first are treated
    as a single line of text: one record, at the position of the first
    node, with the texts of all the nodes one after the other. *)
Theorem getTextMaps_one_parent (w0 : TextNodeWrapper)
    (rest : list TextNodeWrapper) :
  (forall w, w ∈ rest -> parent w = parent w0) ->
  getTextMaps (w0 :: rest)
  = Some [ {| vi_from := pos w0;
              vi_to := pos w0
                       + strlen (joined (wrapperText <$> w0 :: rest));
              str := joined (wrapperText <$> w0 :: rest);
              extra := tt |} ].
Proof.
  intros Hsame.
  assert (Hall : forall w, w ∈ w0 :: rest -> parent w = parent w0).
  { intros w [->|Hw]%elem_of_cons; auto. }
  destruct (getTextMaps_inv
              (fun pre a =>
                 positionMap a
                 = match pre with
                   | [] => []
                   | _ => [ {| vi_from := pos w0;
                               vi_to := pos w0
                                        + strlen (joined (wrapperText <$> pre));
                               str := joined (wrapperText <$> pre);
                               extra := tt |} ]
                   end) (w0 :: rest))
    as (a & Hrun & Ha); [|reflexivity|now rewrite Hrun, Ha].
  intros pre w a Ha [rest' Heq]. unfold addTextNode.
  assert (Hsnoc : forall (l : list TextNodeWrapper) x,
             match l ++ [x] with [] => @nil (ValidationInput unit)
                            | _ => [ {| vi_from := pos w0;
                               vi_to := pos w0
                                 + strlen (joined (wrapperText <$> l ++ [x]));
                               str := joined (wrapperText <$> l ++ [x]);
                               extra := tt |} ]
             end
             = [ {| vi_from := pos w0;
                    vi_to := pos w0
                      + strlen (joined (wrapperText <$> l ++ [x]));
                    str := joined (wrapperText <$> l ++ [x]);
                    extra := tt |} ]) by (intros [|? ?] ?; reflexivity).
  rewrite Hsnoc, fmap_snoc, joined_snoc. fold (wrapperText w).
  destruct pre as [|p pre'].
  - simpl in Heq. injection Heq as <- _. simpl. eexists.
    split; [reflexivity|]. simpl. now rewrite Ha.
  - assert (Hpw : exists pw, last (p :: pre') = Some pw)
      by (apply last_nonempty; discriminate).
    destruct Hpw as [pw Hpw]. rewrite Hpw.
    assert (Hin_pw : pw ∈ w0 :: rest).
    { rewrite Heq. apply elem_of_app. left.
      rewrite last_lookup in Hpw. apply list_elem_of_lookup. eauto. }
    assert (Hin_w : w ∈ w0 :: rest).
    { rewrite Heq. apply elem_of_app. right. constructor. }
    rewrite (Hall w Hin_w), (Hall pw Hin_pw), Nat.eqb_refl, Ha.
    simpl. eexists. split; reflexivity.
Qed.

Lemma getTextMaps_one_parent_witness :
  getTextMaps [mkWrapper (Some "ab"%string) 1%nat 1;
               mkWrapper (Some "cde"%string) 1%nat 3]
  = Some [mkVI 1 6 "abcde"%string tt].
Proof.
  refine (getTextMaps_one_parent (mkWrapper (Some "ab"%string) 1%nat 1)
            [mkWrapper (Some "cde"%string) 1%nat 3] _).
  intros w ->%list_elem_of_singleton. reflexivity.
Defined.

(** * The block expander on a sample document *)

Example getRangesOfParentBlockNodes_ex :
  getRangesOfParentBlockNodes [mkRange 2 3; mkRange 12 13] sampleDoc
  = Some [mkRange 1 6; mkRange 11 15] /\
  getRangesOfParentBlockNodes [mkRange 2 3; mkRange 22 23] sampleDoc = None /\
  getRangesOfParentBlockNodes [mkRange 2 3; mkRange 12 43] sampleDoc = None.
Proof. repeat split. Qed.

Lemma getRangesOfParentBlockNodes_contains_witness :
  getRangesOfParentBlockNodes [mkRange 2 3; mkRange 12 13] sampleDoc
  = Some [mkRange 1 6; mkRange 11 15] /\
  mkRange 12 13 ∈ [mkRange 2 3; mkRange 12 13] /\
  exists m, m ∈ [mkRange 1 6; mkRange 11 15] /\ contains m (mkRange 12 13).
Proof.
  assert (Hin : mkRange 12 13 ∈ [mkRange 2 3; mkRange 12 13])
    by (apply elem_of_cons; right; constructor).
  split; [reflexivity|]. split; [exact Hin|].
  exact (proj1 (getRangesOfParentBlockNodes_contains sampleDoc
                  [mkRange 2 3; mkRange 12 13] _ _ eq_refl Hin)).
Defined.

Lemma getRangesOfParentBlockNodes_bounded_witness :
  Forall (fun r => to r <= content_size sampleDoc)
    [mkRange 2 3; mkRange 12 13] /\
  Forall (fun m => to m <= content_size sampleDoc)
    [mkRange 1 6; mkRange 11 15].
Proof.
  assert (Hle : Forall (fun r => to r <= content_size sampleDoc)
                  [mkRange 2 3; mkRange 12 13]).
  { repeat constructor; simpl; lia. }
  split; [exact Hle|].
  exact (getRangesOfParentBlockNodes_bounded sampleDoc
           [mkRange 2 3; mkRange 12 13] _ eq_refl Hle).
Defined.
